(** * taskiq receiver: message dispatch, task execution and admission control

    A shallow embedding of [taskiq/receiver/receiver.py].  The receiver is
    sequential glue around collaborators it does not own (formatter, parameter
    parser, dependency graph, task bodies, middlewares, result backend, wall
    clock).  It is embedded in a small monad that threads a store, may raise a
    Python exception and writes an execution log; every collaborator is an
    arbitrary computation on the store. *)

From stdpp Require Import base option numbers list strings gmap fin_maps.
From Stdlib.Strings Require Import Byte.

Local Open Scope string_scope.
Local Open Scope Z_scope.
Local Open Scope list_scope.

(** ** Python values, exceptions, messages and results *)

(** The payload values a message carries and a task returns.  [VNone] is
    Python's [None]. *)
Inductive value :=
| VNone
| VBool (b : bool)
| VInt (z : Z)
| VStr (s : string).

(** Where an exception class sits in Python's hierarchy: below [Exception],
    or directly below [BaseException] ([SystemExit], [KeyboardInterrupt],
    [GeneratorExit], [asyncio.CancelledError]).  [except Exception] only
    catches the former. *)
Inductive exn_base := DerivesException | BaseExceptionOnly.

Record exn := Exn { exn_base_of : exn_base; exn_type : string }.

Definition isinstance_Exception (e : exn) : bool :=
  match exn_base_of e with
  | DerivesException => true
  | BaseExceptionOnly => false
  end.

Definition KeyError : exn := Exn DerivesException "KeyError".

(** Messages are Python objects: they live in the store and are handed
    around by reference. *)
Abbreviation loc := nat (only parsing).
Abbreviation bytes := (list byte) (only parsing).

Record TaskiqMessage := mkMessage {
  task_id : string;
  task_name : string;
  args : list value;
  kwargs : gmap string value
}.

Record TaskiqResult := mkResult {
  is_err : bool;
  log : option string;
  return_value : value;
  execution_time : Z
}.

Definition set_kwargs (kw : gmap string value) (m : TaskiqMessage) : TaskiqMessage :=
  {| task_id := task_id m; task_name := task_name m; args := args m; kwargs := kw |}.

Definition empty_message : TaskiqMessage :=
  {| task_id := EmptyString; task_name := EmptyString; args := []; kwargs := ∅ |}.

(** What a computation leaves behind: a value, or a raised exception. *)
Inductive outcome (A : Type) :=
| Ret (a : A)
| Raise (e : exn).
Arguments Ret {A} a.
Arguments Raise {A} e.

Definition returned {A} (o : outcome A) : bool :=
  match o with Ret _ => true | Raise _ => false end.

Definition forget {A} (o : outcome A) : outcome unit :=
  match o with Ret _ => Ret tt | Raise e => Raise e end.

(** ** The execution log

    One entry per logger call and per call into a collaborator, in program
    order.  A collaborator entry records the arguments of the call (for a
    message both the reference and the referent as the callee finds it) and
    how the call ended.  Middlewares are named by their position in
    [broker.middlewares]. *)
Inductive level := DEBUG | INFO | WARNING | ERROR.

Inductive lane := Awaited | InExecutor.

Inductive event :=
| EvLog (lvl : level) (text : string)
| EvLoads (raw : bytes) (o : outcome loc)
| EvPreExecute (i : nat) (l : loc) (m : TaskiqMessage) (o : outcome loc)
| EvRunTask (l : loc) (m : TaskiqMessage)
| EvParseParams (validating : bool) (l : loc) (o : outcome unit)
| EvAsyncCtx (o : outcome unit)
| EvResolveKwargs (o : outcome (gmap string value))
| EvTime (t : Z)
| EvTarget (ln : lane) (a : list value) (kw : gmap string value) (o : outcome value)
| EvClose (o : outcome unit)
| EvOnError (i : nat) (l : loc) (m : TaskiqMessage) (r : TaskiqResult) (e : exn)
    (o : outcome unit)
| EvPostExecute (i : nat) (l : loc) (m : TaskiqMessage) (r : TaskiqResult)
    (o : outcome unit)
| EvSetResult (tid : string) (r : TaskiqResult) (o : outcome unit)
| EvPostSave (i : nat) (l : loc) (m : TaskiqMessage) (r : TaskiqResult)
    (o : outcome unit).

(** *** Reading the log *)

(** The exception a logged collaborator call ended with, if it raised. *)
Definition raised_in (ev : event) : option exn :=
  match ev with
  | EvLoads _ (Raise e) | EvPreExecute _ _ _ (Raise e) | EvParseParams _ _ (Raise e)
  | EvAsyncCtx (Raise e) | EvResolveKwargs (Raise e) | EvTarget _ _ _ (Raise e)
  | EvClose (Raise e) | EvOnError _ _ _ _ _ (Raise e) | EvPostExecute _ _ _ _ (Raise e)
  | EvSetResult _ _ (Raise e) | EvPostSave _ _ _ _ (Raise e) => Some e
  | _ => None
  end.

Definition all_returned (tr : list event) : bool :=
  forallb (λ ev, match raised_in ev with None => true | Some _ => false end) tr.

(** The exceptions the logged calls ended with, in order. *)
Definition raised (tr : list event) : list exn := omap raised_in tr.

(** The calls of the task body: lane, positional and named arguments,
    outcome. *)
Definition target_calls (tr : list event)
    : list (lane * list value * gmap string value * outcome value) :=
  omap (λ ev, match ev with
              | EvTarget ln a kw o => Some (ln, a, kw, o)
              | _ => None
              end) tr.

(** The arguments of the [on_error] calls. *)
Definition on_error_calls (tr : list event) : list (nat * loc * TaskiqResult * exn) :=
  omap (λ ev, match ev with
              | EvOnError i l _ r e _ => Some (i, l, r, e)
              | _ => None
              end) tr.

Definition pre_execute_calls (tr : list event) : list (nat * loc * outcome loc) :=
  omap (λ ev, match ev with
              | EvPreExecute i l _ o => Some (i, l, o)
              | _ => None
              end) tr.

Definition run_task_calls (tr : list event) : list loc :=
  omap (λ ev, match ev with EvRunTask l _ => Some l | _ => None end) tr.

(** The entries into [run_task]: the reference passed and the message
    it holds on entry. *)
Definition entries (tr : list event) : list (loc * TaskiqMessage) :=
  omap (λ ev, match ev with EvRunTask l m => Some (l, m) | _ => None end) tr.

(** The named values the dependency graph resolved to. *)
Definition resolved (tr : list event) : list (gmap string value) :=
  omap (λ ev, match ev with EvResolveKwargs (Ret d) => Some d | _ => None end) tr.

(** The calls of the result backend and of the hooks around it, with
    their outcomes. *)
Definition set_result_calls (tr : list event) : list (string * TaskiqResult * outcome unit) :=
  omap (λ ev, match ev with EvSetResult tid r o => Some (tid, r, o) | _ => None end) tr.

Definition post_execute_calls (tr : list event)
    : list (nat * loc * TaskiqResult * outcome unit) :=
  omap (λ ev, match ev with EvPostExecute i l _ r o => Some (i, l, r, o) | _ => None end) tr.

Definition post_save_calls (tr : list event)
    : list (nat * loc * TaskiqResult * outcome unit) :=
  omap (λ ev, match ev with EvPostSave i l _ r o => Some (i, l, r, o) | _ => None end) tr.

(** A logged call that did not get in the way: it returned, or it is the
    task body raising an instance of [Exception], which [run_task] turns
    into a result. *)
Definition settled (ev : event) : bool :=
  match ev with
  | EvTarget _ _ _ (Raise e) => isinstance_Exception e
  | _ => match raised_in ev with None => true | Some _ => false end
  end.

Definition time_readings (tr : list event) : list Z :=
  omap (λ ev, match ev with EvTime t => Some t | _ => None end) tr.

(** Resolution contexts opened, and [close] calls made. *)
Definition opened (tr : list event) : nat :=
  length (omap (λ ev, match ev with EvAsyncCtx (Ret _) => Some ev | _ => None end) tr).

Definition closed (tr : list event) : nat :=
  length (omap (λ ev, match ev with EvClose _ => Some ev | _ => None end) tr).

(** Every [close] and [on_error] call in the log returned. *)
Definition cleanup_returned (tr : list event) : bool :=
  forallb (λ ev, match ev with
                 | EvClose (Raise _) | EvOnError _ _ _ _ _ (Raise _) => false
                 | _ => true
                 end) tr.

(** The exception a middleware hook call ended with, and whether the hook
    was [post_save]. *)
Definition hook_raised (ev : event) : option (bool * exn) :=
  match ev with
  | EvPreExecute _ _ _ (Raise e) | EvOnError _ _ _ _ _ (Raise e)
  | EvPostExecute _ _ _ _ (Raise e) => Some (false, e)
  | EvPostSave _ _ _ _ (Raise e) => Some (true, e)
  | _ => None
  end.

Definition hooks_raised (tr : list event) : list (bool * exn) := omap hook_raised tr.



Definition is_log (ev : event) : bool :=
  match ev with EvLog _ _ => true | _ => false end.


(** The calls of a threading loop form a chain: the overriding middlewares
    [js] are called in order, each on what the previous one returned,
    starting from [l]; the chain ends with the final message, or is cut
    short by a call that raised. *)
Inductive pre_chain : list nat → loc → list (nat * loc * outcome loc) → option loc → Prop :=
| pre_chain_done l :
    pre_chain [] l [] (Some l)
| pre_chain_call j js l l' calls final :
    pre_chain js l' calls final →
    pre_chain (j :: js) l ((j, l, Ret l') :: calls) final
| pre_chain_cut j js l e :
    pre_chain (j :: js) l [(j, l, Raise e)] None.

(** Entries of [broker.custom_dependency_context]; the keys are classes,
    named here by their class names. *)
Inductive ctx_entry :=
| CtxContext (message : loc)
| CtxTaskiqState
| CtxCustom (v : value).

(** Call signatures and type hints are only handed through to
    [parse_params]. *)
Abbreviation Signature := (list string) (only parsing).
Abbreviation Hints := (gmap string string) (only parsing).

(** ** The state of [Receiver.listen]

    [listen] never returns.  What it keeps is the semaphore and the set
    [tasks] of the asyncio tasks it has created; the event loop interleaves
    its loop body with the tasks and with their done callbacks.  A task is
    named by its number in order of creation. *)

(** How an asyncio task gets done: its coroutine returns, raises, or the
    task is cancelled. *)
Inductive ending := Returned | Raised | Cancelled.

Inductive action :=
| Spawn (message : bytes)
| Finish (task : nat) (how : ending)
| DoneCallback (task : nat).

Record listen_state := mkListen {
  sem_value : option Z;
  tasks : gset nat;
  executing : gset nat;
  scheduled : gset nat;
  created : nat;
  released : list nat
}.

Section Receiver.

(** The state the collaborators keep for themselves (queues, caches, the
    system clock, ...). *)
Context {E : Type}.

(** ** Store and monads *)

Record store := mkStore {
  heap : gmap loc TaskiqMessage;
  custom_dependency_context : gmap string ctx_entry;
  priv : E
}.

(** Dereferencing.  References are created by the formatter and the
    middlewares together with their referents. *)
Definition msg_at (s : store) (l : loc) : TaskiqMessage :=
  default empty_message (heap s !! l).

Definition write_msg (l : loc) (m : TaskiqMessage) (s : store) : store :=
  {| heap := <[l := m]> (heap s);
     custom_dependency_context := custom_dependency_context s;
     priv := priv s |}.

(** Collaborator code: reads and writes the store, returns or raises. *)
Definition X (A : Type) : Type := store → outcome A * store.

(** Receiver code: additionally writes the execution log. *)
Definition M (A : Type) : Type := store → outcome A * store * list event.

Definition ret {A} (a : A) : M A := λ s, (Ret a, s, []).

Definition raise {A} (e : exn) : M A := λ s, (Raise e, s, []).

Definition bind {A B} (c : M A) (k : A → M B) : M B := λ s,
  match c s with
  | (Ret a, s1, t1) => let '(o, s2, t2) := k a s1 in (o, s2, t1 ++ t2)
  | (Raise e, s1, t1) => (Raise e, s1, t1)
  end.

#[global] Instance M_ret : MRet M := @ret.
#[global] Instance M_bind : MBind M := λ A B k c, bind c k.

(** [try: body  except Exception as exc: handler exc]. *)
Definition try_except {A} (body : M A) (handler : exn → M A) : M A := λ s,
  match body s with
  | (Ret a, s1, t1) => (Ret a, s1, t1)
  | (Raise e, s1, t1) =>
      if isinstance_Exception e
      then let '(o, s2, t2) := handler e s1 in (o, s2, t1 ++ t2)
      else (Raise e, s1, t1)
  end.

Definition emit (ev : event) : M unit := λ s, (Ret tt, s, [ev]).

Definition modify (f : store → store) : M unit := λ s, (Ret tt, f s, []).

(** Calling (and awaiting) a collaborator: run it on the store and log the
    call, as seen from the store it starts in, with its outcome.  A
    cancellation delivered while the receiver awaits the call is the outcome
    [Raise] of an [asyncio.CancelledError]. *)
Definition call {A} (c : X A) (ev : store → outcome A → event) : M A := λ s,
  let '(o, s1) := c s in (o, s1, [ev s o]).

Definition deref (l : loc) : M TaskiqMessage := λ s, (Ret (msg_at s l), s, []).

(** ** Collaborators *)

(** [taskiq_dependencies]: a graph opens a resolution context per call. *)
Record AsyncResolveContext := mkResolveContext {
  resolve_kwargs : X (gmap string value);
  close : X unit
}.

Record DependencyGraph := mkGraph {
  async_ctx : gmap string ctx_entry → X AsyncResolveContext
}.

(** A Python callable together with what introspection says about it:
    [asyncio.iscoroutinefunction], [inspect.signature], [get_type_hints] and
    [DependencyGraph(f)].  [invoke f a kw] is [f( *a, **kw)]. *)
Record Callable := mkCallable {
  iscoroutinefunction : bool;
  invoke : list value → gmap string value → X value;
  signature : Signature;
  get_type_hints : Hints;
  dependency_graph_of : DependencyGraph
}.

Record AsyncTaskiqDecoratedTask := mkTask {
  decorated_task_name : string;
  original_func : Callable
}.

(** A middleware object.  A hook is [None] when the class of the object
    inherits it from [TaskiqMiddleware], that is when
    [middleware.__class__.hook != TaskiqMiddleware.hook] is false. *)
Record TaskiqMiddleware := mkMiddleware {
  pre_execute : option (loc → X loc);
  post_execute : option (loc → TaskiqResult → X unit);
  post_save : option (loc → TaskiqResult → X unit);
  on_error : option (loc → TaskiqResult → exn → X unit)
}.

(** The broker; its [state] and [custom_dependency_context] are mutable and
    live in the store. *)
Record AsyncBroker := mkBroker {
  available_tasks : gmap string AsyncTaskiqDecoratedTask;
  middlewares : list TaskiqMiddleware;
  formatter_loads : bytes → X loc;
  result_backend_set_result : string → TaskiqResult → X unit;
  startup : X unit
}.

Record Receiver := mkReceiver {
  broker : AsyncBroker;
  executor : option string;
  validate_params : bool;
  task_signatures : gmap string Signature;
  task_hints : gmap string Hints;
  dependency_graphs : gmap string DependencyGraph;
  sem : option Z
}.

(** [from taskiq.receiver.params_parser import parse_params] and
    [from time import time]: module-level collaborators.  The wall clock is
    read off the collaborators' state, in ticks; only the order and the
    differences of its readings are used. *)
Variable parse_params : option Signature → Hints → loc → X unit.
Variable time : E → Z.

Definition maybe_awaitable {A} (c : X A) : X A := c.

(** ** [_run_sync] *)

Definition _run_sync (target : Callable) (message : loc) : X value := λ s,
  invoke target (args (msg_at s message)) (kwargs (msg_at s message)) s.

(** ** [Receiver.__init__] *)

Definition Receiver_init (broker : AsyncBroker) (executor : option string)
    (validate_params : bool) (max_async_tasks : option Z) : Receiver * list event :=
  let tasks := (map_to_list (available_tasks broker)).*2 in
  let per_task {V} (f : Callable → V) : gmap string V :=
    foldl (λ acc task, <[decorated_task_name task := f (original_func task)]> acc) ∅ tasks in
  let sem :=
    match max_async_tasks with
    | Some n => if bool_decide (0 < n) then Some n else None
    | None => None
    end in
  ({| broker := broker;
      executor := executor;
      validate_params := validate_params;
      task_signatures := per_task signature;
      task_hints := per_task get_type_hints;
      dependency_graphs := per_task dependency_graph_of;
      sem := sem |},
   match sem with
   | Some _ => []
   | None => [EvLog WARNING
       "Setting unlimited number of async tasks can result in undefined behavior"]
   end).

(** ** Loops over [broker.middlewares]

    [for middleware in self.broker.middlewares: if overridden: x = await hook(x)],
    the loop variable threaded through; [i] counts the middlewares passed. *)
Fixpoint for_middlewares {A} (hook : nat → TaskiqMiddleware → A → M A)
    (i : nat) (mws : list TaskiqMiddleware) (x : A) : M A :=
  match mws with
  | [] => mret x
  | middleware :: rest => x' ← hook i middleware x; for_middlewares hook (S i) rest x'
  end.

Definition call_pre_execute (i : nat) (middleware : TaskiqMiddleware)
    (taskiq_msg : loc) : M loc :=
  match pre_execute middleware with
  | Some hook =>
      call (maybe_awaitable (hook taskiq_msg))
           (λ s, EvPreExecute i taskiq_msg (msg_at s taskiq_msg))
  | None => mret taskiq_msg
  end.

(** The three observing hooks share their shape: skip the middleware
    unless its class overrides the hook, else call and await it. *)
Definition call_hook (hook : TaskiqMiddleware → option (X unit))
    (ev : nat → store → outcome unit → event)
    (i : nat) (middleware : TaskiqMiddleware) (_ : unit) : M unit :=
  match hook middleware with
  | Some h => call (maybe_awaitable h) (ev i)
  | None => mret tt
  end.

Definition post_execute_of (taskiq_msg : loc) (result : TaskiqResult)
    (middleware : TaskiqMiddleware) : option (X unit) :=
  h ← post_execute middleware; Some (h taskiq_msg result).

Definition post_save_of (taskiq_msg : loc) (result : TaskiqResult)
    (middleware : TaskiqMiddleware) : option (X unit) :=
  h ← post_save middleware; Some (h taskiq_msg result).

Definition on_error_of (message : loc) (result : TaskiqResult) (found_exception : exn)
    (middleware : TaskiqMiddleware) : option (X unit) :=
  h ← on_error middleware; Some (h message result found_exception).

Definition call_post_execute (taskiq_msg : loc) (result : TaskiqResult) :=
  call_hook (post_execute_of taskiq_msg result)
            (λ i s, EvPostExecute i taskiq_msg (msg_at s taskiq_msg) result).

Definition call_post_save (taskiq_msg : loc) (result : TaskiqResult) :=
  call_hook (post_save_of taskiq_msg result)
            (λ i s, EvPostSave i taskiq_msg (msg_at s taskiq_msg) result).

Definition call_on_error (message : loc) (result : TaskiqResult) (found_exception : exn) :=
  call_hook (on_error_of message result found_exception)
            (λ i s, EvOnError i message (msg_at s message) result found_exception).

(** The positions, counted from [i], of the middlewares whose class
    overrides a hook. *)
Fixpoint overriding {A} (hook : TaskiqMiddleware → option A)
    (i : nat) (mws : list TaskiqMiddleware) : list nat :=
  match mws with
  | [] => []
  | middleware :: rest =>
      match hook middleware with
      | Some _ => i :: overriding hook (S i) rest
      | None => overriding hook (S i) rest
      end
  end.

(** What a loop of observing hooks does, as a relation: the calls made
    (position, store at the call, outcome), the outcome of the loop and the
    store it leaves. *)
Inductive hook_calls (hook : TaskiqMiddleware → option (X unit))
    : nat → list TaskiqMiddleware → store →
      list (nat * store * outcome unit) → outcome unit → store → Prop :=
| hook_calls_nil i s :
    hook_calls hook i [] s [] (Ret tt) s
| hook_calls_skip i middleware rest s calls o s' :
    hook middleware = None →
    hook_calls hook (S i) rest s calls o s' →
    hook_calls hook i (middleware :: rest) s calls o s'
| hook_calls_ret i middleware rest h s s1 calls o s' :
    hook middleware = Some h →
    h s = (Ret tt, s1) →
    hook_calls hook (S i) rest s1 calls o s' →
    hook_calls hook i (middleware :: rest) s ((i, s, Ret tt) :: calls) o s'
| hook_calls_raise i middleware rest h s e s1 :
    hook middleware = Some h →
    h s = (Raise e, s1) →
    hook_calls hook i (middleware :: rest) s [(i, s, Raise e)] (Raise e) s1.





(** ** [Receiver.run_task] *)

(** One round of [for key, val in dep_kwargs.items()]. *)
Definition inject (message : loc) (s : store) (item : string * value) : store :=
  let '(key, val) := item in
  match kwargs (msg_at s message) !! key with
  | Some _ => s
  | None => write_msg message
              (set_kwargs (<[key := val]> (kwargs (msg_at s message))) (msg_at s message)) s
  end.

Definition inject_dep_kwargs (message : loc) (dep_kwargs : gmap string value) : M unit :=
  modify (λ s, foldl (inject message) s (map_to_list dep_kwargs)).

(** [broker_ctx.update({Context: Context(message, broker), TaskiqState: state})]
    on the broker's own dictionary. *)
Definition update_broker_ctx (message : loc) : M (gmap string ctx_entry) := λ s,
  let broker_ctx :=
    <["TaskiqState" := CtxTaskiqState]>
      (<["Context" := CtxContext message]> (custom_dependency_context s)) in
  (Ret broker_ctx,
   {| heap := heap s; custom_dependency_context := broker_ctx; priv := priv s |}, []).

Definition now : M Z := λ s, (Ret (time (priv s)), s, [EvTime (time (priv s))]).

Definition run_in_executor (self : Receiver) (target : Callable) (message : loc) : M value :=
  call (_run_sync target message)
       (λ s, EvTarget InExecutor (args (msg_at s message)) (kwargs (msg_at s message))).

Definition await_target (target : Callable) (message : loc) : M value := λ s,
  call (invoke target (args (msg_at s message)) (kwargs (msg_at s message)))
       (λ s, EvTarget Awaited (args (msg_at s message)) (kwargs (msg_at s message))) s.

Definition run_task (self : Receiver) (target : Callable) (message : loc)
    : M TaskiqResult :=
  m ← deref message;
  emit (EvRunTask message m);;
  let signature :=
    if validate_params self then task_signatures self !! task_name m else None in
  let dependency_graph := dependency_graphs self !! task_name m in
  call (parse_params signature (default ∅ (task_hints self !! task_name m)) message)
       (λ _, EvParseParams (validate_params self) message);;
  dep_ctx ← match dependency_graph with
            | Some dependency_graph =>
                broker_ctx ← update_broker_ctx message;
                dep_ctx ← call (async_ctx dependency_graph broker_ctx)
                               (λ _ o, EvAsyncCtx (forget o));
                dep_kwargs ← call (resolve_kwargs dep_ctx) (λ _, EvResolveKwargs);
                inject_dep_kwargs message dep_kwargs;;
                mret (Some dep_ctx)
            | None => mret None
            end;
  start_time ← now;
  '(returned, found_exception) ←
    try_except
      (returned ← (if iscoroutinefunction target
                   then await_target target message
                   else run_in_executor self target message);
       mret (returned, None))
      (λ exc,
        emit (EvLog ERROR "Exception found while executing function: %s");;
        mret (VNone, Some exc));
  stop_time ← now;
  let execution_time := stop_time - start_time in
  match dep_ctx with
  | Some dep_ctx => call (close dep_ctx) (λ _, EvClose)
  | None => mret tt
  end;;
  let result :=
    {| is_err := bool_decide (is_Some found_exception);
       log := None;
       return_value := returned;
       execution_time := execution_time |} in
  match found_exception with
  | Some found_exception =>
      for_middlewares (call_on_error message result found_exception)
                      0%nat (middlewares (broker self)) tt
  | None => mret tt
  end;;
  mret result.

(** ** [Receiver.callback] *)

Definition callback (self : Receiver) (message : bytes) (raise_err : bool) : M unit :=
  loaded ← try_except
    (taskiq_msg ← call (formatter_loads (broker self) message) (λ _, EvLoads message);
     mret (Some taskiq_msg))
    (λ exc,
      emit (EvLog WARNING "Cannot parse message: %s. Skipping execution.\n %s");;
      mret None);
  match loaded with
  | None => mret tt
  | Some taskiq_msg =>
      emit (EvLog DEBUG "Received message: {taskiq_msg}");;
      m ← deref taskiq_msg;
      match available_tasks (broker self) !! task_name m with
      | None =>
          emit (EvLog WARNING "task %s is not found. Maybe you forgot to import it?")
      | Some _ =>
          emit (EvLog DEBUG "Function for task %s is resolved. Executing...");;
          taskiq_msg ← for_middlewares call_pre_execute 0%nat
                         (middlewares (broker self)) taskiq_msg;
          emit (EvLog INFO "Executing task %s with ID: %s");;
          m ← deref taskiq_msg;
          task ← match available_tasks (broker self) !! task_name m with
                 | Some task => mret task
                 | None => raise KeyError
                 end;
          result ← run_task self (original_func task) taskiq_msg;
          for_middlewares (call_post_execute taskiq_msg result) 0%nat
                          (middlewares (broker self)) tt;;
          try_except
            (m ← deref taskiq_msg;
             call (result_backend_set_result (broker self) (task_id m) result)
                  (λ _, EvSetResult (task_id m) result);;
             for_middlewares (call_post_save taskiq_msg result) 0%nat
                             (middlewares (broker self)) tt)
            (λ exc,
              emit (EvLog ERROR "Can't set result in result backend. Cause: %s");;
              if raise_err then raise exc else mret tt)
      end
  end.

(** ** [Receiver.listen]

    After [await self.broker.startup()] the loop runs on this state:
    [sem_value] is the value of [self.sem] ([None] without a semaphore),
    [tasks] the local set, [executing] the tasks not yet done, [scheduled]
    the done tasks whose done callback the event loop has yet to call,
    [created] the number of tasks created, and [released] the history of
    the [task_cb] calls. *)
Definition listen_start (self : Receiver) : listen_state :=
  {| sem_value := sem self; tasks := ∅; executing := ∅; scheduled := ∅;
     created := 0%nat; released := [] |}.

(** [task_cb]: [tasks.discard(task)], then [self.sem.release()] if there is
    a semaphore. *)
Definition task_cb (task : nat) (σ : listen_state) : listen_state :=
  {| sem_value := (λ v, v + 1) <$> sem_value σ;
     tasks := tasks σ ∖ {[task]};
     executing := executing σ;
     scheduled := scheduled σ;
     created := created σ;
     released := released σ ++ [task] |}.

(** One round of [async for message in self.broker.listen()], after a
    permit is taken: [create_task(self.callback(message, raise_err=False))],
    [tasks.add(task)], [task.add_done_callback(task_cb)].  No [await] lies
    between, so the round is one step. *)
Definition spawn (sem_value' : option Z) (σ : listen_state) : listen_state :=
  {| sem_value := sem_value';
     tasks := {[created σ]} ∪ tasks σ;
     executing := {[created σ]} ∪ executing σ;
     scheduled := scheduled σ;
     created := S (created σ);
     released := released σ |}.

(** The steps of the event loop.  [Spawn] is not enabled while
    [await self.sem.acquire()] finds no permit; a task gets done once, in
    any of the three ways, which schedules its done callback; the done
    callback then runs [task_cb]. *)
Definition listen_step (a : action) (σ : listen_state) : option listen_state :=
  match a with
  | Spawn _ =>
      match sem_value σ with
      | Some v => if bool_decide (0 < v) then Some (spawn (Some (v - 1)) σ) else None
      | None => Some (spawn None σ)
      end
  | Finish task _ =>
      if bool_decide (task ∈ executing σ)
      then Some {| sem_value := sem_value σ;
                   tasks := tasks σ;
                   executing := executing σ ∖ {[task]};
                   scheduled := {[task]} ∪ scheduled σ;
                   created := created σ;
                   released := released σ |}
      else None
  | DoneCallback task =>
      if bool_decide (task ∈ scheduled σ)
      then Some (task_cb task
                   {| sem_value := sem_value σ;
                      tasks := tasks σ;
                      executing := executing σ;
                      scheduled := scheduled σ ∖ {[task]};
                      created := created σ;
                      released := released σ |})
      else None
  end.

Fixpoint listen_run (acts : list action) (σ : listen_state) : option listen_state :=
  match acts with
  | [] => Some σ
  | a :: rest => σ' ← listen_step a σ; listen_run rest σ'
  end.

(** What holds of every state [listen] reaches with [K] permits. *)
Definition listen_inv (K : Z) (σ : listen_state) : Prop :=
  (∃ v, sem_value σ = Some v ∧ 0 ≤ v ∧ v + Z.of_nat (size (tasks σ)) = K)
  ∧ tasks σ = executing σ ∪ scheduled σ
  ∧ executing σ ## scheduled σ
  ∧ (∀ task, task ∈ tasks σ → (task < created σ)%nat)
  ∧ NoDup (released σ)
  ∧ (∀ task, task ∈ released σ ↔ (task < created σ)%nat ∧ task ∉ tasks σ).

End Receiver.

(** * A concrete worker

    A small broker with its tasks, middlewares and wire format, on which the
    receiver can be run.  The collaborators' own state is the wall clock. *)
Module Scenario.

Definition clock := Z.

Definition tick (d : Z) (s : @store clock) : store :=
  {| heap := heap s;
     custom_dependency_context := custom_dependency_context s;
     priv := priv s + d |}.

Definition ValueError : exn := Exn DerivesException "ValueError".
Definition TypeError : exn := Exn DerivesException "TypeError".
Definition RuntimeError : exn := Exn DerivesException "RuntimeError".
Definition ValidationError : exn := Exn DerivesException "ValidationError".
Definition SystemExit : exn := Exn BaseExceptionOnly "SystemExit".
Definition CancelledError : exn := Exn BaseExceptionOnly "CancelledError".

(** A parameter parser that rejects more arguments than the signature has
    parameters, and does nothing without a signature. *)
Definition parse_params (signature : option Signature) (hints : Hints)
    (message : loc) : @X clock unit := λ s,
  match signature with
  | None => (Ret tt, s)
  | Some params =>
      if bool_decide (length (args (msg_at s message)) + size (kwargs (msg_at s message))
                      ≤ length params)%nat
      then (Ret tt, s)
      else (Raise ValidationError, s)
  end.

Definition time (c : clock) : Z := c.

(** Dependency graphs: one that resolves to the given named values, one
    whose resolution fails, both opening a context that closes quietly. *)
Definition resolving (deps : gmap string value) : @DependencyGraph clock :=
  {| async_ctx := λ _ s,
       (Ret {| resolve_kwargs := λ s, (Ret deps, s); close := λ s, (Ret tt, s) |}, s) |}.

Definition failing_resolution : @DependencyGraph clock :=
  {| async_ctx := λ _ s,
       (Ret {| resolve_kwargs := λ s, (Raise ValueError, s);
               close := λ s, (Ret tt, s) |}, s) |}.

(** [def add(a, b): return a + b], a blocking body that takes three ticks. *)
Definition add : @Callable clock :=
  {| iscoroutinefunction := false;
     invoke := λ a kw s,
       match a, map_to_list kw with
       | [VInt x; VInt y], [] => (Ret (VInt (x + y)), tick 3 s)
       | _, _ => (Raise TypeError, s)
       end;
     signature := ["a"; "b"];
     get_type_hints := ∅;
     dependency_graph_of := resolving ∅ |}.

(** [async def boom(): raise ValueError()]. *)
Definition boom : @Callable clock :=
  {| iscoroutinefunction := true;
     invoke := λ _ _ s, (Raise ValueError, tick 1 s);
     signature := [];
     get_type_hints := ∅;
     dependency_graph_of := resolving ∅ |}.

(** [async def leave(): sys.exit(1)]. *)
Definition leave : @Callable clock :=
  {| iscoroutinefunction := true;
     invoke := λ _ _ s, (Raise SystemExit, tick 1 s);
     signature := [];
     get_type_hints := ∅;
     dependency_graph_of := resolving ∅ |}.

(** [async def scale(x, factor = Depends(...)): return x * factor], the
    dependency resolving to 10. *)
Definition scale : @Callable clock :=
  {| iscoroutinefunction := true;
     invoke := λ a kw s,
       match a, kw !! "x", kw !! "factor" with
       | [], Some (VInt x), Some (VInt f) => (Ret (VInt (x * f)), tick 1 s)
       | _, _, _ => (Raise TypeError, s)
       end;
     signature := ["x"; "factor"];
     get_type_hints := ∅;
     dependency_graph_of := resolving {["factor" := VInt 10]} |}.

(** A task one of whose dependencies cannot be resolved. *)
Definition needy : @Callable clock :=
  {| iscoroutinefunction := true;
     invoke := λ _ _ s, (Ret VNone, s);
     signature := [];
     get_type_hints := ∅;
     dependency_graph_of := failing_resolution |}.

Definition registry : gmap string (@AsyncTaskiqDecoratedTask clock) :=
  list_to_map
    [("add", mkTask "add" add); ("boom", mkTask "boom" boom);
     ("leave", mkTask "leave" leave); ("scale", mkTask "scale" scale);
     ("needy", mkTask "needy" needy)].

(** The wire format: one byte names the message. *)
Definition decode (raw : bytes) : option TaskiqMessage :=
  match raw with
  | [x] =>
      if Byte.eqb x "a"%byte then Some (mkMessage "id-a" "add" [VInt 2; VInt 3] ∅)
      else if Byte.eqb x "b"%byte then Some (mkMessage "id-b" "boom" [] ∅)
      else if Byte.eqb x "l"%byte then Some (mkMessage "id-l" "leave" [] ∅)
      else if Byte.eqb x "s"%byte
           then Some (mkMessage "id-s" "scale" [] {["x" := VInt 4]})
      else if Byte.eqb x "f"%byte
           then Some (mkMessage "id-f" "scale" [] {["x" := VInt 4; "factor" := VInt 5]})
      else if Byte.eqb x "n"%byte then Some (mkMessage "id-n" "needy" [] ∅)
      else if Byte.eqb x "t"%byte
           then Some (mkMessage "id-t" "add" [VInt 1; VInt 2; VInt 3] ∅)
      else if Byte.eqb x "m"%byte then Some (mkMessage "id-m" "missing" [] ∅)
      else None
  | _ => None
  end.

(** New message objects are numbered in order of creation. *)
Definition alloc (m : TaskiqMessage) : @X clock loc := λ s,
  (Ret (size (heap s)), write_msg (size (heap s)) m s).

Definition loads (raw : bytes) : @X clock loc :=
  match decode raw with
  | Some m => alloc m
  | None => λ s, (Raise ValueError, s)
  end.

Definition accept_result (tid : string) (r : TaskiqResult) : @X clock unit :=
  λ s, (Ret tt, s).

(** Middlewares.  [bump] and [twice] override [pre_execute] and hand on a
    new message whose first positional argument is incremented, resp.
    doubled; [plain] overrides nothing; [watch] overrides the three
    observing hooks; [grumpy] overrides [post_save] and raises in it. *)
Definition map_first (f : Z → Z) (m : TaskiqMessage) : TaskiqMessage :=
  match args m with
  | VInt x :: rest => mkMessage (task_id m) (task_name m) (VInt (f x) :: rest) (kwargs m)
  | _ => m
  end.

Definition no_hooks : @TaskiqMiddleware clock :=
  {| pre_execute := None; post_execute := None; post_save := None; on_error := None |}.

Definition bump : @TaskiqMiddleware clock :=
  {| pre_execute := Some (λ l s, alloc (map_first (λ x, x + 1) (msg_at s l)) s);
     post_execute := None; post_save := None; on_error := None |}.

Definition twice : @TaskiqMiddleware clock :=
  {| pre_execute := Some (λ l s, alloc (map_first (λ x, 2 * x) (msg_at s l)) s);
     post_execute := None; post_save := None; on_error := None |}.

Definition plain : @TaskiqMiddleware clock := no_hooks.

Definition watch : @TaskiqMiddleware clock :=
  {| pre_execute := None;
     post_execute := Some (λ _ _ s, (Ret tt, s));
     post_save := Some (λ _ _ s, (Ret tt, s));
     on_error := Some (λ _ _ _ s, (Ret tt, s)) |}.

Definition grumpy : @TaskiqMiddleware clock :=
  {| pre_execute := None; post_execute := None;
     post_save := Some (λ _ _ s, (Raise RuntimeError, s));
     on_error := None |}.

Definition broker_with (mws : list TaskiqMiddleware) : @AsyncBroker clock :=
  {| available_tasks := registry;
     middlewares := mws;
     formatter_loads := loads;
     result_backend_set_result := accept_result;
     startup := λ s, (Ret tt, s) |}.

Definition receiver_with (mws : list TaskiqMiddleware) : @Receiver clock :=
  (Receiver_init (broker_with mws) None true (Some 2)).1.

(** A fresh worker at wall-clock time 100, and one holding message [m]. *)
Definition fresh : @store clock :=
  {| heap := ∅; custom_dependency_context := ∅; priv := 100 |}.

Definition holding (m : TaskiqMessage) : @store clock := write_msg 0%nat m fresh.

(** [run_task] on the message a raw message decodes to, and [callback] on
    the raw message itself. *)
Definition run_task_on (raw : bytes) (target : Callable)
    (mws : list TaskiqMiddleware) : outcome TaskiqResult * store * list event :=
  run_task parse_params time (receiver_with mws) target 0%nat
           (holding (default empty_message (decode raw))).

Definition run_callback (raw : bytes) (mws : list TaskiqMiddleware) (raise_err : bool)
    : outcome unit * store * list event :=
  callback parse_params time (receiver_with mws) raw raise_err fresh.

(** A receiver with [max_async_tasks = 1]. *)
Definition one_at_a_time : @Receiver clock :=
  (Receiver_init (broker_with []) None true (Some 1)).1.

(** The runs looked at below. *)
Definition ran_add := run_task_on ["a"%byte] add [].
Definition ran_boom := run_task_on ["b"%byte] boom [watch; plain; watch].
Definition ran_leave := run_task_on ["l"%byte] leave [watch].
Definition ran_needy := run_task_on ["n"%byte] needy [watch].
Definition ran_scale := run_task_on ["f"%byte] scale [].
Definition heard_grumpy := run_callback ["s"%byte] [watch; grumpy] false.
Definition heard_grumpy_strict := run_callback ["s"%byte] [watch; grumpy] true.
Definition heard_chain := run_callback ["a"%byte] [bump; plain; twice; watch] false.

(** A middleware whose [pre_execute] hands on the message under the name
    of a task the broker does not have; a result backend that is down; a
    receiver without a limit on the tasks in flight. *)
Definition rename : @TaskiqMiddleware clock :=
  {| pre_execute := Some (λ l s,
       alloc (mkMessage (task_id (msg_at s l)) "gone"
                        (args (msg_at s l)) (kwargs (msg_at s l))) s);
     post_execute := None; post_save := None; on_error := None |}.

Definition refuse_result (tid : string) (r : TaskiqResult) : @X clock unit :=
  λ s, (Raise RuntimeError, s).

Definition down_with (mws : list TaskiqMiddleware) : @Receiver clock :=
  (Receiver_init
     {| available_tasks := registry;
        middlewares := mws;
        formatter_loads := loads;
        result_backend_set_result := refuse_result;
        startup := λ s, (Ret tt, s) |} None true (Some 2)).1.

Definition unlimited : @Receiver clock :=
  (Receiver_init (broker_with []) None true None).1.

Definition ran_unregistered := run_task_on ["m"%byte] boom [watch].
Definition heard_boom := run_callback ["b"%byte] [watch; plain; watch] false.
Definition heard_rename := run_callback ["a"%byte] [rename; watch] false.
Definition heard_down :=
  callback parse_params time (down_with [watch]) ["a"%byte] false fresh.
Definition heard_down_strict :=
  callback parse_params time (down_with [watch]) ["a"%byte] true fresh.

End Scenario.

(** * Properties *)

(** ** Running the monad backwards

    From the result of a computation to the results of its parts. *)
Section Inversion.
Context {E : Type}.
Implicit Types (s : @store E) (tr : list event).

Lemma bind_inv {A B} (c : M A) (k : A → M B) s (o : outcome B) s2 tr :
  (c ≫= k) s = (o, s2, tr) →
  (∃ a s1 t1 t2, c s = (Ret a, s1, t1) ∧ k a s1 = (o, s2, t2) ∧ tr = t1 ++ t2)
  ∨ (∃ e, c s = (Raise e, s2, tr) ∧ o = Raise e).
Proof.
  unfold mbind, M_bind, bind. destruct (c s) as [[[a|e] s1] t1].
  - destruct (k a s1) as [[o' s2'] t2] eqn:Hk. intros [= <- <- <-].
    left. by exists a, s1, t1, t2.
  - intros [= <- <- <-]. right. by exists e.
Qed.

Lemma try_except_inv {A} (body : M A) (handler : exn → M A) s (o : outcome A) s2 tr :
  try_except body handler s = (o, s2, tr) →
  (∃ a, body s = (Ret a, s2, tr) ∧ o = Ret a)
  ∨ (∃ e s1 t1 t2, body s = (Raise e, s1, t1) ∧ isinstance_Exception e = true ∧
       handler e s1 = (o, s2, t2) ∧ tr = t1 ++ t2)
  ∨ (∃ e, body s = (Raise e, s2, tr) ∧ isinstance_Exception e = false ∧ o = Raise e).
Proof.
  unfold try_except. destruct (body s) as [[[a|e] s1] t1].
  - intros [= <- <- <-]. left. by exists a.
  - destruct (isinstance_Exception e) eqn:He.
    + destruct (handler e s1) as [[o' s2'] t2] eqn:Hh. intros [= <- <- <-].
      right; left. by exists e, s1, t1, t2.
    + intros [= <- <- <-]. right; right. by exists e.
Qed.

Lemma call_inv {A} (c : X A) ev s (o : outcome A) s1 tr :
  call c ev s = (o, s1, tr) → c s = (o, s1) ∧ tr = [ev s o].
Proof. unfold call. destruct (c s) as [o' s']. by intros [= <- <- <-]. Qed.

End Inversion.

(** [inv_run H] takes the run [H : c s = (o, s', tr)] apart along the
    structure of [c], down to the calls of collaborators and the loops. *)
Ltac inv_run H :=
  lazymatch type of H with
  | (_ ≫= _) _ = _ =>
      let H1 := fresh "Hc" in let H2 := fresh "Hk" in
      apply bind_inv in H as [(? & ? & ? & ? & H1 & H2 & ?) | (? & H1 & ?)];
      [simplify_eq; inv_run H1; inv_run H2 | simplify_eq; inv_run H1]
  | try_except _ _ _ = _ =>
      let H1 := fresh "Hb" in let H2 := fresh "Hh" in
      apply try_except_inv in H as
        [(? & H1 & ?) | [(? & ? & ? & ? & H1 & ? & H2 & ?) | (? & H1 & ? & ?)]];
      [simplify_eq; inv_run H1
      |simplify_eq; inv_run H1; inv_run H2
      |simplify_eq; inv_run H1]
  | call _ _ _ = _ => apply call_inv in H as [H ?]; simplify_eq
  | mret _ _ = _ => unfold mret, M_ret, ret in H; simplify_eq
  | ret _ _ = _ => unfold ret in H; simplify_eq
  | raise _ _ = _ => unfold raise in H; simplify_eq
  | emit _ _ = _ => unfold emit in H; simplify_eq
  | deref _ _ = _ => unfold deref in H; simplify_eq
  | modify _ _ = _ => unfold modify in H; simplify_eq
  | now _ _ = _ => unfold now in H; simplify_eq
  | update_broker_ctx _ _ = _ => unfold update_broker_ctx in H; simplify_eq
  | inject_dep_kwargs _ _ _ = _ => unfold inject_dep_kwargs, modify in H; simplify_eq
  | await_target _ _ _ = _ => unfold await_target in H; inv_run H
  | run_in_executor _ _ _ _ = _ => unfold run_in_executor in H; inv_run H
  | (match ?x with _ => _ end) _ = _ => destruct x eqn:?; inv_run H
  | _ => idtac
  end.

(** ** Reading the log of a composite run *)

Lemma target_calls_app t1 t2 :
  target_calls (t1 ++ t2) = target_calls t1 ++ target_calls t2.
Proof. apply omap_app. Qed.

Lemma on_error_calls_app t1 t2 :
  on_error_calls (t1 ++ t2) = on_error_calls t1 ++ on_error_calls t2.
Proof. apply omap_app. Qed.

Lemma pre_execute_calls_app t1 t2 :
  pre_execute_calls (t1 ++ t2) = pre_execute_calls t1 ++ pre_execute_calls t2.
Proof. apply omap_app. Qed.

Lemma run_task_calls_app t1 t2 :
  run_task_calls (t1 ++ t2) = run_task_calls t1 ++ run_task_calls t2.
Proof. apply omap_app. Qed.

Lemma time_readings_app t1 t2 :
  time_readings (t1 ++ t2) = time_readings t1 ++ time_readings t2.
Proof. apply omap_app. Qed.

Lemma cleanup_returned_app t1 t2 :
  cleanup_returned (t1 ++ t2) = cleanup_returned t1 && cleanup_returned t2.
Proof. apply forallb_app. Qed.

Lemma all_returned_app t1 t2 :
  all_returned (t1 ++ t2) = all_returned t1 && all_returned t2.
Proof. apply forallb_app. Qed.

Lemma hooks_raised_app t1 t2 :
  hooks_raised (t1 ++ t2) = hooks_raised t1 ++ hooks_raised t2.
Proof. apply omap_app. Qed.

Lemma entries_app t1 t2 : entries (t1 ++ t2) = entries t1 ++ entries t2.
Proof. apply omap_app. Qed.

Lemma resolved_app t1 t2 : resolved (t1 ++ t2) = resolved t1 ++ resolved t2.
Proof. apply omap_app. Qed.

Lemma opened_app t1 t2 : opened (t1 ++ t2) = (opened t1 + opened t2)%nat.
Proof. unfold opened. by rewrite omap_app, length_app. Qed.

Lemma closed_app t1 t2 : closed (t1 ++ t2) = (closed t1 + closed t2)%nat.
Proof. unfold closed. by rewrite omap_app, length_app. Qed.

Create Rewrite HintDb trace.
#[export] Hint Rewrite target_calls_app on_error_calls_app pre_execute_calls_app
  run_task_calls_app time_readings_app cleanup_returned_app all_returned_app
  hooks_raised_app entries_app resolved_app opened_app closed_app @app_nil_r : trace.

Ltac trace_simpl := repeat (progress (autorewrite with trace in *; simpl in * )).

(** ** The loops over the middlewares *)
Section Loops.
Context {E : Type}.
Implicit Types (s : @store E) (tr : list event) (mws : list (@TaskiqMiddleware E)).

Lemma for_hooks_inv hook ev i mws s o s' tr :
  for_middlewares (call_hook hook ev) i mws tt s = (o, s', tr) →
  ∃ calls, hook_calls hook i mws s calls o s' ∧
           tr = (λ c, ev c.1.1 c.1.2 c.2) <$> calls.
Proof.
  revert i s tr. induction mws as [|mw rest IH]; intros i s tr H; simpl in H.
  - inv_run H. exists []. split; [constructor | done].
  - inv_run H; unfold call_hook in Hc; destruct (hook mw) as [h|] eqn:Hh; inv_run Hc.
    + destruct x. apply IH in Hk as (calls & Hcalls & ->).
      exists ((i, s, Ret tt) :: calls). split; [|done].
      by eapply hook_calls_ret.
    + apply IH in Hk as (calls & Hcalls & ->).
      exists calls. split; [|done]. by apply hook_calls_skip.
    + exists [(i, s, Raise x)]. split; [|done]. by eapply hook_calls_raise.
Qed.


(** A loop that raises does so in its last call; one that returns made
    only calls that returned. *)
Lemma hook_calls_outcome hook i mws s calls o s' :
  hook_calls hook i mws s calls o s' →
  match o with
  | Ret _ => Forall (λ c, returned c.2 = true) calls
  | Raise e => ∃ j sj, last calls = Some (j, sj, Raise e)
  end.
Proof.
  induction 1 as [| ? ? ? ? ? ? ? _ _ IH | ? ? ? ? ? ? ? ? ? _ _ H IH | ? ? ? ? ? ? ? _ _];
    simpl; eauto.
  - destruct o; [by constructor|].
    destruct IH as (j & sj & IH). exists j, sj.
    destruct calls; [done|]. done.
Qed.

(** A call that raised ends the loop with its exception. *)
Lemma hook_calls_raised hook i mws s calls o s' j sj e :
  hook_calls hook i mws s calls o s' →
  (j, sj, Raise e) ∈ calls → o = Raise e.
Proof.
  induction 1 as [| ? ? ? ? ? ? ? _ _ IH | ? ? ? ? ? ? ? ? ? _ _ _ IH | ? ? ? ? ? ? ? _ _];
    intros Hin.
  - by apply elem_of_nil in Hin.
  - by apply IH.
  - apply elem_of_cons in Hin as [?|Hin]; [done | by apply IH].
  - apply list_elem_of_singleton in Hin. by simplify_eq.
Qed.


Lemma overriding_ext {A B} (f : @TaskiqMiddleware E → option A)
    (g : @TaskiqMiddleware E → option B) i mws :
  (∀ mw, is_Some (f mw) ↔ is_Some (g mw)) →
  overriding f i mws = overriding g i mws.
Proof.
  intros Hfg. revert i. induction mws as [|mw rest IH]; intros i; simpl; [done|].
  specialize (Hfg mw). rewrite IH.
  destruct (f mw), (g mw); try done.
  - destruct Hfg as [Hfg _]. destruct Hfg; done.
  - destruct Hfg as [_ Hfg]. destruct Hfg; done.
Qed.


(** The observing loops write nothing but their own hook calls to the log. *)
Lemma hook_loop_quiet hook ev i mws s o s' tr :
  for_middlewares (call_hook hook ev) i mws tt s = (o, s', tr) →
  (∀ j sj oj, match ev j sj oj with
              | EvOnError _ _ _ _ _ _ | EvPostExecute _ _ _ _ _ | EvPostSave _ _ _ _ _ => True
              | _ => False
              end) →
  pre_execute_calls tr = [] ∧ run_task_calls tr = [] ∧ target_calls tr = []
  ∧ time_readings tr = [] ∧ opened tr = 0%nat ∧ closed tr = 0%nat
  ∧ entries tr = [] ∧ resolved tr = [].
Proof.
  intros H Hev. apply for_hooks_inv in H as (calls & _ & ->).
  unfold opened, closed.
  induction calls as [|c calls IH]; simpl; [done|].
  specialize (Hev c.1.1 c.1.2 c.2). by destruct (ev c.1.1 c.1.2 c.2).
Qed.

(** Which hook exceptions an observing loop logs: none when it returns,
    its own when it raises. *)
Lemma hook_loop_raised hook ev i mws s o s' tr b :
  for_middlewares (call_hook hook ev) i mws tt s = (o, s', tr) →
  (∀ j sj oj, hook_raised (ev j sj oj) =
              match oj with Ret _ => None | Raise e => Some (b, e) end) →
  hooks_raised tr = match o with Ret _ => [] | Raise e => [(b, e)] end.
Proof.
  intros H Hev. apply for_hooks_inv in H as (calls & Hcalls & ->).
  induction Hcalls as [| ? ? ? ? ? ? ? _ _ IH | ? ? ? ? ? ? ? ? ? _ _ _ IH | ? ? ? ? ? ? ? _ _];
    simpl; rewrite ?Hev; done.
Qed.

(** An observing loop that raises has logged the raising call last. *)
Lemma hook_loop_last hook ev i mws s e s' tr :
  for_middlewares (call_hook hook ev) i mws tt s = (Raise e, s', tr) →
  ∃ j sj, last tr = Some (ev j sj (Raise e)).
Proof.
  intros H. apply for_hooks_inv in H as (calls & Hcalls & ->).
  apply hook_calls_outcome in Hcalls as (j & sj & Hlast).
  exists j, sj. by rewrite fmap_last, Hlast.
Qed.

(** The threading loop: its calls form a chain from the message it starts
    on, and it returns the end of the chain. *)
Lemma pre_execute_loop_chain i mws l s o s' tr :
  for_middlewares call_pre_execute i mws l s = (o, s', tr) →
  ∃ final, pre_chain (overriding pre_execute i mws) l (pre_execute_calls tr) final
    ∧ run_task_calls tr = []
    ∧ match o with
      | Ret l' => final = Some l' ∧ hooks_raised tr = []
      | Raise e => final = None ∧ hooks_raised tr = [(false, e)]
      end.
Proof.
  revert i l s tr. induction mws as [|mw rest IH]; intros i l s tr H; simpl in H.
  - inv_run H. exists (Some l). split; [constructor | done].
  - simpl. destruct (pre_execute mw) as [h|] eqn:Hh;
      inv_run H; unfold call_pre_execute in Hc; rewrite Hh in Hc; inv_run Hc; trace_simpl.
    + apply IH in Hk as (final & Hchain & Hrun & Ho).
      exists final. split; [by constructor | done].
    + exists None. split; [constructor | done].
    + by apply IH in Hk.
Qed.

(** The threading loop logs [pre_execute] calls only. *)
Lemma pre_execute_loop_events (P : event → Prop) i mws l s o s' tr :
  for_middlewares call_pre_execute i mws l s = (o, s', tr) →
  (∀ j l' m oj, P (EvPreExecute j l' m oj)) →
  Forall P tr.
Proof.
  intros H HP. revert i l s tr H.
  induction mws as [|mw rest IH]; intros i l s tr H; simpl in H.
  - inv_run H. constructor.
  - destruct (pre_execute mw) as [h|] eqn:Hh;
      inv_run H; unfold call_pre_execute in Hc; rewrite Hh in Hc; inv_run Hc; simpl.
    + constructor; [done|]. by eapply IH.
    + by repeat constructor.
    + by eapply IH.
Qed.


End Loops.

(** ** [run_task] *)
Section RunTask.
Context {E : Type}.
Variable parse_params : option Signature → Hints → loc → @X E unit.
Variable time : E → Z.
Implicit Types (s : @store E) (tr : list event) (self : @Receiver E).



(** What else the log of [run_task] shows: no [pre_execute] call, the
    entry into [run_task] itself, and a hook exception only when an
    [on_error] hook raised, which then is what [run_task] raises. *)
Lemma run_task_shape self target message s o s' tr :
  run_task parse_params time self target message s = (o, s', tr) →
  pre_execute_calls tr = [] ∧ run_task_calls tr = [message] ∧
  match o with
  | Ret _ => hooks_raised tr = []
  | Raise e => hooks_raised tr = [] ∨ hooks_raised tr = [(false, e)]
  end.
Proof.
  intros H. unfold run_task in H. inv_run H; trace_simpl.
  all: try match goal with
    | Hloop : for_middlewares (call_on_error _ _ _) _ _ _ _ = _ |- _ =>
        destruct (hook_loop_quiet _ _ _ _ _ _ _ _ Hloop) as (-> & -> & _); [done|];
        rewrite (hook_loop_raised _ _ _ _ _ _ _ _ false Hloop) by (by intros ? ? [])
    end.
  all: eauto.
Qed.


(** Where [close] is reached: the resolution context, if one was opened,
    is closed once when the task body returned or raised an instance of
    [Exception], and is not closed otherwise. *)
Lemma run_task_closes self target message s o s' tr :
  run_task parse_params time self target message s = (o, s', tr) →
  (opened tr ≤ 1)%nat ∧ (closed tr ≤ opened tr)%nat
  ∧ ∀ ln a kw ot, (ln, a, kw, ot) ∈ target_calls tr →
      match ot with Ret _ => True | Raise e => isinstance_Exception e = true end →
      closed tr = opened tr.
Proof.
  intros H. unfold run_task in H. inv_run H; trace_simpl.
  all: try match goal with
    | Hloop : for_middlewares (call_on_error _ _ _) _ _ _ _ = _ |- _ =>
        destruct (hook_loop_quiet _ _ _ _ _ _ _ _ Hloop)
          as (_ & _ & -> & _ & -> & -> & _); [done|]
    end.
  all: unfold opened, closed; simpl.
  all: split; [lia|]; split; [lia|].
  all: intros ln a kw ot Hin Hot.
  all: try (by apply elem_of_nil in Hin).
  all: try done.
  all: apply list_elem_of_singleton in Hin; simplify_eq; congruence.
Qed.

End RunTask.

(** ** [callback] *)
Section Callback.
Context {E : Type}.
Variable parse_params : option Signature → Hints → loc → @X E unit.
Variable time : E → Z.
Implicit Types (s : @store E) (tr : list event) (self : @Receiver E).

(** Replace the logs of the parts of a [callback] run by what the lemmas
    about the parts say of them. *)
Ltac use_parts :=
  repeat match goal with
  | H : for_middlewares call_pre_execute _ _ _ _ = (Ret _, _, _) |- _ =>
      apply pre_execute_loop_chain in H as (? & ? & ? & ? & ?)
  | H : for_middlewares call_pre_execute _ _ _ _ = (Raise _, _, _) |- _ =>
      apply pre_execute_loop_chain in H as (? & ? & ? & ? & ?)
  | H : run_task _ _ _ _ _ _ = (Ret _, _, _) |- _ =>
      apply run_task_shape in H as (? & ? & ?)
  | H : run_task _ _ _ _ _ _ = (Raise _, _, _) |- _ =>
      apply run_task_shape in H as (? & ? & [?|?])
  | H : for_middlewares (call_post_execute _ _) _ _ _ _ = _ |- _ =>
      destruct (hook_loop_quiet _ _ _ _ _ _ _ _ H) as (? & ? & _); [done|];
      apply (hook_loop_raised _ _ _ _ _ _ _ _ false) in H; [|by intros ? ? []]
  | H : for_middlewares (call_post_save _ _) _ _ _ _ = _ |- _ =>
      destruct (hook_loop_quiet _ _ _ _ _ _ _ _ H) as (? & ? & _); [done|];
      apply (hook_loop_raised _ _ _ _ _ _ _ _ true) in H; [|by intros ? ? []]
  end.

(** C6.  When the formatter fails to decode the raw message, or decodes it
    to a message whose task name is not among the broker's tasks, [callback]
    returns without raising; apart from the decoding itself the log holds
    logger calls only, the last of them a warning: no task body is run, no
    result is made, no hook is called, nothing is written to the result
    backend. *)
Theorem callback_drops self raw raise_err s o1 s1 :
  formatter_loads (broker self) raw s = (o1, s1) →
  match o1 with
  | Raise e => isinstance_Exception e = true
  | Ret l => available_tasks (broker self) !! task_name (msg_at s1 l) = None
  end →
  ∃ logs, callback parse_params time self raw raise_err s
            = (Ret tt, s1, EvLoads raw o1 :: logs)
          ∧ forallb is_log logs = true
          ∧ ∃ text, last logs = Some (EvLog WARNING text).
Proof.
  intros Hloads Hdrop.
  unfold callback, mbind, M_bind, bind, try_except, call. rewrite Hloads.
  destruct o1 as [l|e]; simpl.
  - unfold deref. rewrite Hdrop. simpl. eauto.
  - rewrite Hdrop. simpl. eauto.
Qed.

(** C3, as the code has it.  An exception raised by a [pre_execute],
    [post_execute] or [on_error] hook leaves [callback] as it is, whatever
    [raise_err].  An exception raised by a [post_save] hook is handled like
    a failure of the result backend: it leaves [callback] when [raise_err]
    is set or when it is not an instance of [Exception], and is logged and
    dropped otherwise. *)
Theorem callback_hook_exceptions self raw raise_err s o s' tr in_post_save e :
  callback parse_params time self raw raise_err s = (o, s', tr) →
  (in_post_save, e) ∈ hooks_raised tr →
  o = if in_post_save && negb raise_err && isinstance_Exception e
      then Ret tt else Raise e.
Proof.
  intros H Hin. unfold callback in H. inv_run H; use_parts; trace_simpl.
  all: repeat match goal with
    | Heq : hooks_raised _ = _ |- _ => rewrite Heq in Hin; clear Heq
    end; trace_simpl.
  all: try (by apply elem_of_nil in Hin).
  all: try (apply list_elem_of_singleton in Hin; simplify_eq).
  all: try done.
  all: try by rewrite ?H, ?H0.
  all: by rewrite H, andb_false_r.
Qed.


End Callback.

(** ** Dependency injection *)
Section Injection.
Context {E : Type}.
Implicit Types (s : @store E) (tr : list event) (self : @Receiver E).





End Injection.

Section RunTaskKwargs.
Context {E : Type}.
Variable parse_params : option Signature → Hints → loc → @X E unit.
Variable time : E → Z.
Implicit Types (s : @store E) (tr : list event) (self : @Receiver E).









End RunTaskKwargs.

Section CallbackKwargs.
Context {E : Type}.
Variable parse_params : option Signature → Hints → loc → @X E unit.
Variable time : E → Z.
Implicit Types (s : @store E) (tr : list event) (self : @Receiver E).

Lemma omap_none {A B} (f : A → option B) (xs : list A) :
  Forall (λ x, f x = None) xs → omap f xs = [].
Proof. induction 1 as [|x xs Hx _ IH]; simpl; [done|]. by rewrite Hx. Qed.




End CallbackKwargs.

(** ** [listen] *)
Section Listen.
Local Set Warnings "-clear-no-such-hyp".
Context {E : Type}.
Implicit Types (σ : listen_state) (self : @Receiver E).

Ltac listen_simpl :=
  cbn [sem_value tasks executing scheduled created released spawn task_cb] in *.

Lemma listen_start_inv self K :
  sem self = Some K → 0 ≤ K → listen_inv K (listen_start self).
Proof.
  intros Hsem HK. unfold listen_inv, listen_start; listen_simpl.
  split; [exists K; rewrite size_empty; split; [done|lia]|].
  split; [set_solver|]. split; [set_solver|]. split; [set_solver|].
  split; [constructor|]. intros task. split; [by intros ?%elem_of_nil | lia].
Qed.

Lemma listen_step_inv K a σ σ' :
  listen_inv K σ → listen_step a σ = Some σ' → listen_inv K σ'.
Proof.
  intros ((v & Hv & Hv0 & HvK) & Htasks & Hdisj & Hlt & Hnodup & Hrel) Hstep.
  destruct a as [message|task how|task]; unfold listen_step in Hstep.
  - rewrite Hv in Hstep. case_bool_decide; [|done]. simplify_eq.
    assert (created σ ∉ tasks σ) as Hfresh by (intros ?%Hlt; lia).
    unfold listen_inv; listen_simpl.
    split.
    { exists (v - 1). split; [done|]. split; [lia|].
      rewrite size_union, size_singleton by set_solver. lia. }
    split; [set_solver|]. split; [set_solver|].
    split.
    { intros task [->%elem_of_singleton|?%Hlt]%elem_of_union; lia. }
    split; [done|].
    intros task. rewrite Hrel. split.
    + intros [? ?]. split; [lia|]. intros [->%elem_of_singleton|?]%elem_of_union; [lia|done].
    + intros [Hle Hnot]. split; [|set_solver].
      destruct (decide (task = created σ)) as [->|]; [set_solver|lia].
  - case_bool_decide; [|done]. simplify_eq.
    unfold listen_inv; listen_simpl.
    split; [by exists v|].
    split.
    { rewrite Htasks. apply set_eq. intros t.
      destruct (decide (t = task)); set_solver. }
    split; [set_solver|]. done.
  - case_bool_decide as Hin; [|done]. simplify_eq.
    assert (task ∈ tasks σ) as Hintasks by set_solver.
    unfold listen_inv; listen_simpl.
    split.
    { exists (v + 1). rewrite Hv. split; [done|]. split; [lia|].
      rewrite size_difference, size_singleton by set_solver.
      assert (size (tasks σ) ≠ 0)%nat; [|lia].
      intros Hz%size_empty_inv. set_solver. }
    split.
    { rewrite Htasks. apply set_eq. intros t.
      destruct (decide (t = task)); set_solver. }
    split; [set_solver|].
    split; [intros t ?; apply Hlt; set_solver|].
    split.
    { apply NoDup_app. split; [done|]. split; [|apply NoDup_singleton].
      intros t Ht ->%list_elem_of_singleton. apply Hrel in Ht. set_solver. }
    intros t. rewrite elem_of_app, Hrel, list_elem_of_singleton. split.
    + intros [[? ?]| ->]; [split; [done|set_solver]|]. split; [by apply Hlt|set_solver].
    + intros [? Hnot]. destruct (decide (t = task)) as [->|]; [by right|].
      left. split; [done|]. set_solver.
Qed.

Lemma listen_run_inv K acts σ σ' :
  listen_inv K σ → listen_run acts σ = Some σ' → listen_inv K σ'.
Proof.
  revert σ. induction acts as [|a acts IH]; intros σ Hinv Hrun; simpl in Hrun.
  - by simplify_eq.
  - destruct (listen_step a σ) as [σ1|] eqn:Hstep; [|done]. simpl in Hrun.
    eapply IH; [|done]. by eapply listen_step_inv.
Qed.

(** C9.  With [max_async_tasks = K > 0], in every state [listen] reaches
    at most [K] dispatch units are executing: the free permits and the
    in-flight set always add up to [K].  A unit that gets done, in whichever
    way (return, exception, cancellation), has its permit released and
    leaves the in-flight set through its done callback: that step is always
    enabled for it, and no unit is released twice; the units released are
    exactly those created and no longer in flight. *)
Theorem listen_bounded (broker : @AsyncBroker E) executor validate K acts σ :
  0 < K →
  listen_run acts (listen_start (Receiver_init broker executor validate (Some K)).1)
    = Some σ →
  Z.of_nat (size (executing σ)) ≤ K
  ∧ (∃ v, sem_value σ = Some v ∧ 0 ≤ v ∧ v + Z.of_nat (size (tasks σ)) = K)
  ∧ NoDup (released σ)
  ∧ (∀ task, task ∈ released σ ↔ (task < created σ)%nat ∧ task ∉ tasks σ)
  ∧ (∀ task how, task ∈ executing σ →
       ∃ σ', listen_run [Finish task how; DoneCallback task] σ = Some σ'
             ∧ (task ∉ tasks σ') ∧ task ∈ released σ'
             ∧ sem_value σ' = ((λ v, v + 1) <$> sem_value σ)).
Proof.
  intros HK Hrun.
  eapply (listen_run_inv K) in Hrun as (Hsem & Htasks & Hdisj & Hlt & Hnodup & Hrel).
  2: { apply listen_start_inv; [|lia]. simpl. by rewrite bool_decide_true. }
  split.
  { destruct Hsem as (v & _ & Hv & <-).
    assert (size (executing σ) ≤ size (tasks σ))%nat; [|lia].
    apply subseteq_size. set_solver. }
  split; [done|]. split; [done|]. split; [done|].
  intros task how Hin. simpl. rewrite bool_decide_true by done. simpl.
  rewrite bool_decide_true by set_solver. simpl.
  eexists. split; [done|]. simpl. split; [set_solver|]. split; [|done].
  apply elem_of_app. right. by apply list_elem_of_singleton.
Qed.

End Listen.

(** ** [__init__]: the per-task tables *)
Section Init.
Context {E : Type}.



End Init.

(** ** The concrete worker *)

Import Scenario.






(** [add(2, 3)] gives 5 after three ticks. *)
Example ran_add_result :
  ran_add.1.1
  = Ret {| is_err := false; log := None; return_value := VInt 5; execution_time := 3 |}.
Proof. vm_compute. reflexivity. Qed.

(** [boom()] gives a failed result, with [on_error] called on the first and
    the third middleware. *)
Example ran_boom_result :
  ran_boom.1.1
  = Ret {| is_err := true; log := None; return_value := VNone; execution_time := 1 |}
  ∧ (on_error_calls ran_boom.2).*1.*1.*1 = [0; 2]%nat.
Proof. vm_compute. done. Qed.




(** [scale] called with [x = 4, factor = 5] while its dependency resolves
    [factor] to 10: the call uses 5. *)
Example ran_scale_result :
  target_calls ran_scale.2
  = [(Awaited, [], {["x" := VInt 4; "factor" := VInt 5]}, Ret (VInt 20))].
Proof. vm_compute. reflexivity. Qed.


(** C3 fails on a [post_save] hook: with [raise_err = False] the exception
    it raises is caught by the handler around [set_result], logged, and
    [callback] returns. *)
Lemma callback_swallows_post_save_exception :
  hooks_raised heard_grumpy.2 = [(true, RuntimeError)]
  ∧ heard_grumpy.1.1 = Ret tt.
Proof. vm_compute. done. Qed.

Lemma callback_hook_exceptions_witness :
  (true, RuntimeError) ∈ hooks_raised heard_grumpy_strict.2
  ∧ heard_grumpy_strict.1.1 = Raise RuntimeError.
Proof.
  assert ((true, RuntimeError) ∈ hooks_raised heard_grumpy_strict.2) as H1
    by (vm_compute; left).
  split; [exact H1|].
  apply (callback_hook_exceptions parse_params time (receiver_with [watch; grumpy])
           ["s"%byte] true fresh heard_grumpy_strict.1.1 heard_grumpy_strict.1.2
           heard_grumpy_strict.2 true RuntimeError); [|exact H1].
  vm_compute. reflexivity.
Defined.

(** C4 fails on the code.  When [resolve_kwargs] raises, and when the task
    body raises something that is not an instance of [Exception], [run_task]
    is left with the resolution context opened and never closed: [close] is
    only reached by falling through the [try] statement. *)
Theorem run_task_leaves_context_open :
  (ran_needy.1.1 = Raise ValueError ∧ opened ran_needy.2 = 1%nat
   ∧ closed ran_needy.2 = 0%nat)
  ∧ (ran_leave.1.1 = Raise SystemExit ∧ opened ran_leave.2 = 1%nat
     ∧ closed ran_leave.2 = 0%nat).
Proof. vm_compute. done. Qed.

(** A malformed message and a message for a task the broker does not have
    are both dropped. *)
Lemma callback_drops_witness :
  (∃ logs, run_callback ["z"%byte] [watch] false
             = (Ret tt, fresh, EvLoads ["z"%byte] (Raise ValueError) :: logs)
           ∧ forallb is_log logs = true
           ∧ ∃ text, last logs = Some (EvLog WARNING text))
  ∧ (∃ logs, run_callback ["m"%byte] [watch] true
               = (Ret tt, (loads ["m"%byte] fresh).2,
                  EvLoads ["m"%byte] (Ret 0%nat) :: logs)
             ∧ forallb is_log logs = true
             ∧ ∃ text, last logs = Some (EvLog WARNING text)).
Proof.
  split.
  - apply (callback_drops parse_params time (receiver_with [watch]) ["z"%byte] false
             fresh (Raise ValueError) fresh); vm_compute; reflexivity.
  - apply (callback_drops parse_params time (receiver_with [watch]) ["m"%byte] true
             fresh (Ret 0%nat) (loads ["m"%byte] fresh).2); vm_compute; reflexivity.
Defined.



(** The message [add(2, 3)] passes through [bump] and [twice], in that
    order: [add] is called on [(2 + 1) * 2] and 3. *)
Example heard_chain_result :
  target_calls heard_chain.2 = [(InExecutor, [VInt 6; VInt 3], ∅, Ret (VInt 9))]
  ∧ pre_execute_calls heard_chain.2 = [(0, 0, Ret 1); (2, 1, Ret 2)]%nat.
Proof. vm_compute. done. Qed.


(** With one permit the second message is not taken up before the first
    unit, here a cancelled one, has been cleaned up. *)
Example listen_one_permit :
  listen_run [Spawn ["a"%byte]; Spawn ["b"%byte]] (listen_start one_at_a_time) = None
  ∧ is_Some (listen_run [Spawn ["a"%byte]; Finish 0 Cancelled; DoneCallback 0;
                         Spawn ["b"%byte]]
                        (listen_start one_at_a_time)).
Proof. vm_compute. split; [done|]. by eexists. Qed.

Lemma listen_bounded_witness :
  ∃ σ, listen_run [Spawn ["a"%byte]; Finish 0 Cancelled; DoneCallback 0; Spawn ["b"%byte]]
         (listen_start (Receiver_init (broker_with []) None true (Some 1)).1) = Some σ
       ∧ Z.of_nat (size (executing σ)) ≤ 1
       ∧ NoDup (released σ)
       ∧ released σ = [0%nat].
Proof.
  destruct (listen_run [Spawn ["a"%byte]; Finish 0 Cancelled; DoneCallback 0;
                        Spawn ["b"%byte]]
              (listen_start (Receiver_init (broker_with []) None true (Some 1)).1))
    as [σ|] eqn:Hrun; [|by vm_compute in Hrun].
  exists σ. split; [done|].
  destruct (listen_bounded (broker_with []) None true 1 _ σ ltac:(lia) Hrun)
    as (Hbound & _ & Hnodup & _).
  split; [exact Hbound|]. split; [exact Hnodup|].
  vm_compute in Hrun. by simplify_eq.
Defined.


(** * More of the receiver

    Properties of [run_task], [callback], [__init__] and [listen] beyond the
    ones above. *)

Lemma set_result_calls_app t1 t2 :
  set_result_calls (t1 ++ t2) = set_result_calls t1 ++ set_result_calls t2.
Proof. apply omap_app. Qed.

Lemma post_execute_calls_app t1 t2 :
  post_execute_calls (t1 ++ t2) = post_execute_calls t1 ++ post_execute_calls t2.
Proof. apply omap_app. Qed.

Lemma post_save_calls_app t1 t2 :
  post_save_calls (t1 ++ t2) = post_save_calls t1 ++ post_save_calls t2.
Proof. apply omap_app. Qed.

#[export] Hint Rewrite set_result_calls_app post_execute_calls_app post_save_calls_app
  : trace.

Section MoreLoops.
Context {E : Type}.
Implicit Types (s : @store E) (tr : list event) (mws : list (@TaskiqMiddleware E)).

(** An observing loop logs nothing that a reading of the log for other
    calls would pick up. *)
Lemma hook_loop_others {B} (f : event → option B) hook ev i mws s o s' tr :
  for_middlewares (call_hook hook ev) i mws tt s = (o, s', tr) →
  (∀ j sj oj, f (ev j sj oj) = None) →
  omap f tr = [].
Proof.
  intros H Hf. apply for_hooks_inv in H as (calls & _ & ->).
  induction calls as [|c calls IH]; simpl; [done|]. by rewrite Hf.
Qed.

(** The calls an observing loop logs for itself: one per overriding
    middleware, in order, when the loop returns; a proper start of that
    list, the last call raising, when it raises. *)
Lemma hook_loop_own {B} (f : event → option B) (g : nat → outcome unit → B)
    hook ev i mws s o s' tr :
  for_middlewares (call_hook hook ev) i mws tt s = (o, s', tr) →
  (∀ j sj oj, f (ev j sj oj) = Some (g j oj)) →
  match o with
  | Ret _ => omap f tr = (λ j, g j (Ret tt)) <$> overriding hook i mws
  | Raise e => ∃ js j rest, overriding hook i mws = js ++ j :: rest
                 ∧ omap f tr = ((λ j, g j (Ret tt)) <$> js) ++ [g j (Raise e)]
  end.
Proof.
  intros H Hf. apply for_hooks_inv in H as (calls & Hcalls & ->).
  induction Hcalls as [| ? ? ? ? ? ? ? Hh _ IH | ? ? ? ? ? ? ? ? ? Hh _ _ IH | ? ? ? ? ? ? ? Hh _];
    rewrite ?fmap_cons; cbn [omap list_omap overriding]; rewrite ?Hh, ?Hf.
  - done.
  - done.
  - destruct o as [[]|e].
    + by rewrite IH.
    + destruct IH as (js & j & rest' & -> & ->). by exists (i :: js), j, rest'.
  - by exists [], i, (overriding hook (S i) rest).
Qed.
Lemma overriding_on_error_of l r e i mws :
  overriding (on_error_of l r e) i mws = overriding on_error i mws.
Proof.
  apply overriding_ext. intros mw. unfold on_error_of.
  destruct (on_error mw); simpl; split; intros [? ?]; done.
Qed.

Lemma overriding_post_execute_of l r i mws :
  overriding (post_execute_of l r) i mws = overriding post_execute i mws.
Proof.
  apply overriding_ext. intros mw. unfold post_execute_of.
  destruct (post_execute mw); simpl; split; intros [? ?]; done.
Qed.

Lemma overriding_post_save_of l r i mws :
  overriding (post_save_of l r) i mws = overriding post_save i mws.
Proof.
  apply overriding_ext. intros mw. unfold post_save_of.
  destruct (post_save mw); simpl; split; intros [? ?]; done.
Qed.

End MoreLoops.

Section MoreRunTask.
Context {E : Type}.
Variable parse_params : option Signature → Hints → loc → @X E unit.
Variable time : E → Z.
Implicit Types (s : @store E) (tr : list event) (self : @Receiver E).

(** What a returned result says.  Its log slot is empty.  The task body
    was called exactly once.  If the body returned, the result is a success
    carrying its value and no [on_error] hook was called.  If the body
    raised, the exception is an instance of [Exception], the result is a
    failure without value, and every middleware overriding [on_error] has
    been called once, in registration order, on the message, that result
    and that exception. *)
Theorem run_task_result_and_on_error self target message s r s' tr :
  run_task parse_params time self target message s = (Ret r, s', tr) →
  log r = None
  ∧ ∃ ln a kw ot,
      target_calls tr = [(ln, a, kw, ot)]
      ∧ match ot with
        | Ret v =>
            is_err r = false ∧ return_value r = v ∧ on_error_calls tr = []
        | Raise e =>
            isinstance_Exception e = true ∧ is_err r = true ∧ return_value r = VNone
            ∧ on_error_calls tr =
              (λ i, (i, message, r, e)) <$> overriding on_error 0 (middlewares (broker self))
        end.
Proof.
  intros H. unfold run_task in H. inv_run H; trace_simpl.
  all: split; [done|].
  all: try (eexists _, _, _, (Ret _); split; [reflexivity|]; done).
  all: match goal with
    | Hloop : for_middlewares (call_on_error _ _ _) _ _ _ _ = _ |- _ =>
        pose proof (hook_loop_own
          (λ ev, match ev with EvOnError i l _ r e _ => Some (i, l, r, e) | _ => None end)
          (λ j _, (j, _, _, _)) _ _ _ _ _ _ _ _ Hloop (λ _ _ _, eq_refl)) as Hown;
        destruct (hook_loop_quiet _ _ _ _ _ _ _ _ Hloop) as (_ & _ & Hq & _); [done|]
    end.
  all: rewrite Hq; simpl in Hown; rewrite overriding_on_error_of in Hown.
  all: eexists _, _, _, (Raise _); split; [reflexivity|]; done.
Qed.

(** What [execution_time] measures.  [run_task] reads the clock twice,
    immediately before the call of the task body and after it, with nothing
    but the logging of a caught exception in between; the duration is the
    difference of the two readings.  Validation, dependency resolution, the
    closing of the context and the [on_error] hooks are not timed. *)
Theorem run_task_times_the_body_only self target message s r s' tr :
  run_task parse_params time self target message s = (Ret r, s', tr) →
  ∃ before t0 ln a kw ot logs t1 after,
    tr = before ++ [EvTime t0; EvTarget ln a kw ot] ++ logs ++ [EvTime t1] ++ after
    ∧ forallb is_log logs = true
    ∧ time_readings before = [] ∧ time_readings after = []
    ∧ execution_time r = t1 - t0.
Proof.
  intros H. unfold run_task in H. inv_run H.
  all: try match goal with
    | Hloop : for_middlewares (call_on_error _ _ _) _ _ _ _ = _ |- _ =>
        destruct (hook_loop_quiet _ _ _ _ _ _ _ _ Hloop) as (_ & _ & _ & Hq & _); [done|]
    end.
  all: first
    [ eexists [_; _], _, _, _, _, _, [], _, _; split; [reflexivity|]; by trace_simpl
    | eexists [_; _], _, _, _, _, _, [_], _, _; split; [reflexivity|]; by trace_simpl
    | eexists [_; _; _; _], _, _, _, _, _, [], _, _; split; [reflexivity|]; by trace_simpl
    | eexists [_; _; _; _], _, _, _, _, _, [_], _, _; split; [reflexivity|]; by trace_simpl ].
Qed.

(** A task name without dependency graph.  [run_task] opens and closes no
    resolution context and resolves nothing; the task body is called in the
    very store the parameter parser left, on the positional and named
    arguments the message then holds. *)
Theorem run_task_without_graph self target message s s1 o s' tr :
  dependency_graphs self !! task_name (msg_at s message) = None →
  parse_params
    (if validate_params self then task_signatures self !! task_name (msg_at s message)
     else None)
    (default ∅ (task_hints self !! task_name (msg_at s message))) message s
    = (Ret tt, s1) →
  run_task parse_params time self target message s = (o, s', tr) →
  opened tr = 0%nat ∧ closed tr = 0%nat ∧ resolved tr = []
  ∧ ∃ ln ot s2,
      invoke target (args (msg_at s1 message)) (kwargs (msg_at s1 message)) s1 = (ot, s2)
      ∧ target_calls tr
        = [(ln, args (msg_at s1 message), kwargs (msg_at s1 message), ot)].
Proof.
  intros Hnone Hparse H. unfold run_task in H. inv_run H; trace_simpl.
  all: try congruence.
  all: try match goal with
    | Hloop : for_middlewares (call_on_error _ _ _) _ _ _ _ = _ |- _ =>
        destruct (hook_loop_quiet _ _ _ _ _ _ _ _ Hloop)
          as (_ & _ & -> & _ & -> & -> & _ & ->); [done|]
    end.
  all: match goal with
    | Hc : parse_params _ _ _ _ = _ |- _ => rewrite Hparse in Hc; simplify_eq
    end.
  all: unfold opened, closed, _run_sync in *; simpl.
  all: do 3 (split; [done|]); eauto.
Qed.

End MoreRunTask.

(** ** [callback]: the result backend and the hooks around it *)

Lemma settled_app t1 t2 :
  forallb settled (t1 ++ t2) = forallb settled t1 && forallb settled t2.
Proof. apply forallb_app. Qed.
Lemma raised_app t1 t2 : raised (t1 ++ t2) = raised t1 ++ raised t2.
Proof. apply omap_app. Qed.
#[export] Hint Rewrite settled_app raised_app : trace.

Section MoreLoops2.
Context {E : Type}.
Implicit Types (s : @store E) (tr : list event) (mws : list (@TaskiqMiddleware E)).

Lemma hook_loop_settled hook ev i mws s o s' tr :
  for_middlewares (call_hook hook ev) i mws tt s = (o, s', tr) →
  (∀ j sj e, settled (ev j sj (Raise e)) = false) →
  forallb settled tr = true → o = Ret tt.
Proof.
  intros H Hev Hset. destruct o as [[]|e]; [done|].
  apply hook_loop_last in H as (j & sj & (tr' & ->)%last_Some).
  rewrite forallb_app in Hset. simpl in Hset. rewrite Hev in Hset.
  by rewrite andb_false_r in Hset.
Qed.

Lemma pre_execute_loop_settled i mws l s o s' tr :
  for_middlewares call_pre_execute i mws l s = (o, s', tr) →
  forallb settled tr = true → ∃ l', o = Ret l'.
Proof.
  revert i l s tr. induction mws as [|mw rest IH]; intros i l s tr H Hset; simpl in H.
  - inv_run H. eauto.
  - destruct (pre_execute mw) as [h|] eqn:Hh;
      inv_run H; unfold call_pre_execute in Hc; rewrite Hh in Hc; inv_run Hc; trace_simpl.
    all: try done.
    all: by eapply IH.
Qed.

Lemma pre_execute_loop_others {B} (f : event → option B) i mws l s o s' tr :
  for_middlewares call_pre_execute i mws l s = (o, s', tr) →
  (∀ j l' m oj, f (EvPreExecute j l' m oj) = None) →
  omap f tr = [].
Proof.
  intros H Hf. apply omap_none. by eapply pre_execute_loop_events.
Qed.
End MoreLoops2.

Section MoreCallback.
Context {E : Type}.
Variable parse_params : option (list string) → gmap string string → nat → @X E unit.
Variable time : E → Z.
Implicit Types (s : @store E) (tr : list event) (self : @Receiver E).

Lemma run_task_quiet self target message s o s' tr :
  run_task parse_params time self target message s = (o, s', tr) →
  set_result_calls tr = [] ∧ post_execute_calls tr = [] ∧ post_save_calls tr = [].
Proof.
  intros H. unfold run_task in H. inv_run H; trace_simpl.
  all: try match goal with
    | Hloop : for_middlewares (call_on_error _ _ _) _ _ _ _ = _ |- _ =>
        unfold set_result_calls, post_execute_calls, post_save_calls;
        rewrite !(hook_loop_others _ _ _ _ _ _ _ _ _ Hloop) by done
    end.
  all: done.
Qed.

Lemma run_task_settled self target message s o s' tr :
  run_task parse_params time self target message s = (o, s', tr) →
  forallb settled tr = true →
  ∃ r ln a kw ot,
    o = Ret r ∧ target_calls tr = [(ln, a, kw, ot)]
    ∧ is_err r = negb (returned ot)
    ∧ return_value r = match ot with Ret v => v | Raise _ => VNone end
    ∧ on_error_calls tr =
      match ot with
      | Ret _ => []
      | Raise e => (λ i, (i, message, r, e)) <$>
                     overriding on_error 0 (middlewares (broker self))
      end.
Proof.
  intros H Hset. unfold run_task in H. inv_run H; trace_simpl; try done.
  all: try (rewrite ?andb_true_r in Hset; congruence).
  all: try match goal with
    | Hloop : for_middlewares (call_on_error _ _ _) _ _ _ _ = _ |- _ =>
        pose proof (hook_loop_settled _ _ _ _ _ _ _ _ Hloop (λ _ _ _, eq_refl)) as Hret;
        pose proof (hook_loop_own
          (λ ev, match ev with EvOnError i l _ r e _ => Some (i, l, r, e) | _ => None end)
          (λ j _, (j, _, _, _)) _ _ _ _ _ _ _ _ Hloop (λ _ _ _, eq_refl)) as Hown;
        destruct (hook_loop_quiet _ _ _ _ _ _ _ _ Hloop) as (_ & _ & Hq & _); [done|]
    end.
  all: try (eexists _, _, _, _, (Ret _); split; [reflexivity|]; split; [reflexivity|]; done).
  all: rewrite ?H in Hset; simpl in Hset; rewrite ?andb_true_r, ?andb_false_r in Hset.
  all: try done.
  all: specialize (Hret Hset); simplify_eq.
  all: simpl in Hown; rewrite overriding_on_error_of in Hown; rewrite Hq.
  all: eexists _, _, _, _, (Raise _); split; [reflexivity|]; split; [reflexivity|]; done.
Qed.

(** What the parts of a [callback] run log, read through the projections
    of the log; the hypothesis about a part is used up. *)
Ltac others_of H t lem :=
  assert (set_result_calls t = []) by (eapply lem; [exact H|done]);
  assert (target_calls t = []) by (eapply lem; [exact H|done]);
  assert (on_error_calls t = []) by (eapply lem; [exact H|done]);
  assert (run_task_calls t = []) by (eapply lem; [exact H|done]).

Ltac part_facts :=
  repeat match goal with
  | H : for_middlewares call_pre_execute _ _ _ _ = (_, _, ?t) |- _ =>
      others_of H t @pre_execute_loop_others;
      assert (post_execute_calls t = []) by (eapply pre_execute_loop_others; [exact H|done]);
      assert (post_save_calls t = []) by (eapply pre_execute_loop_others; [exact H|done]);
      clear H
  | H : run_task _ _ _ _ _ _ = (_, _, ?t) |- _ =>
      let Hq := fresh in
      pose proof (run_task_quiet _ _ _ _ _ _ _ H) as (? & ? & ?);
      pose proof (run_task_shape _ _ _ _ _ _ _ _ _ H) as (_ & ? & _);
      clear H
  | H : for_middlewares (call_post_execute ?msg ?res) _ _ _ _ = (_, _, ?t) |- _ =>
      others_of H t @hook_loop_others;
      assert (post_save_calls t = []) by (eapply hook_loop_others; [exact H|done]);
      let Hown := fresh "Hown" in
      pose proof (hook_loop_own
        (λ ev, match ev with EvPostExecute i l _ r o => Some (i, l, r, o) | _ => None end)
        (λ j oj, (j, msg, res, oj)) _ _ _ _ _ _ _ _ H (λ _ _ _, eq_refl)) as Hown;
      rewrite overriding_post_execute_of in Hown;
      change (omap _ t) with (post_execute_calls t) in Hown;
      clear H
  | H : for_middlewares (call_post_save ?msg ?res) _ _ _ _ = (_, _, ?t) |- _ =>
      others_of H t @hook_loop_others;
      assert (post_execute_calls t = []) by (eapply hook_loop_others; [exact H|done]);
      let Hown := fresh "Hown" in
      pose proof (hook_loop_own
        (λ ev, match ev with EvPostSave i l _ r o => Some (i, l, r, o) | _ => None end)
        (λ j oj, (j, msg, res, oj)) _ _ _ _ _ _ _ _ H (λ _ _ _, eq_refl)) as Hown;
      rewrite overriding_post_save_of in Hown;
      change (omap _ t) with (post_save_calls t) in Hown;
      clear H
  end.

Ltac use_facts :=
  repeat match goal with
  | Heq : set_result_calls _ = [] |- _ => rewrite ?Heq in *; clear Heq
  | Heq : post_execute_calls _ = [] |- _ => rewrite ?Heq in *; clear Heq
  | Heq : post_save_calls _ = [] |- _ => rewrite ?Heq in *; clear Heq
  | Heq : target_calls _ = [] |- _ => rewrite ?Heq in *; clear Heq
  | Heq : on_error_calls _ = [] |- _ => rewrite ?Heq in *; clear Heq
  | Heq : run_task_calls _ = _ |- _ => rewrite ?Heq in *; clear Heq
  end.

(** When the result backend fails to store the result, no [post_save]
    hook is called.  The failure is logged and dropped when it is an
    instance of [Exception] and [raise_err] is not set; otherwise it is what
    [callback] raises. *)
Theorem callback_result_backend_failure self raw raise_err s o s' tr tid r e :
  callback parse_params time self raw raise_err s = (o, s', tr) →
  (tid, r, Raise e) ∈ set_result_calls tr →
  o = (if isinstance_Exception e && negb raise_err then Ret tt else Raise e)
  ∧ post_save_calls tr = [].
Proof.
  intros H Hin. unfold callback in H. inv_run H; part_facts; trace_simpl; use_facts;
    trace_simpl.
  all: try (by apply elem_of_nil in Hin).
  all: try (apply list_elem_of_singleton in Hin; simplify_eq).
  all: split; [|done].
  all: by repeat match goal with Hi : isinstance_Exception _ = _ |- _ => rewrite Hi end.
Qed.

(** The order of a dispatch that reaches the result backend.  [set_result]
    is called once, on the result of the one [run_task] entered, after every
    middleware overriding [post_execute] has been called on that message and
    that result, once each in registration order, and has returned.  The
    [post_save] hooks come after a [set_result] that returned: they are
    called on the same message and result, in registration order, up to the
    first that raises; none is called when [set_result] raised. *)
Theorem callback_lifecycle self raw raise_err s o s' tr tid r oc :
  callback parse_params time self raw raise_err s = (o, s', tr) →
  (tid, r, oc) ∈ set_result_calls tr →
  ∃ l, set_result_calls tr = [(tid, r, oc)]
       ∧ run_task_calls tr = [l]
       ∧ post_execute_calls tr =
           (λ i, (i, l, r, Ret tt)) <$> overriding post_execute 0 (middlewares (broker self))
       ∧ match oc with
         | Ret _ =>
             Forall (λ c, c.1.1.2 = l ∧ c.1.2 = r) (post_save_calls tr)
             ∧ (post_save_calls tr).*1.*1.*1
                 `prefix_of` overriding post_save 0 (middlewares (broker self))
         | Raise _ => post_save_calls tr = []
         end.
Proof.
  intros H Hin. unfold callback in H. inv_run H; part_facts; trace_simpl; use_facts;
    trace_simpl.
  all: try (by apply elem_of_nil in Hin).
  all: try (apply list_elem_of_singleton in Hin; simplify_eq).
  all: eexists; split; [reflexivity|]; split; [reflexivity|]; split; [done|]; try done.
  all: repeat match goal with
    | Hown : ∃ js j rest, _ |- _ => destruct Hown as (js & j & rest & -> & ->)
    | Hown : post_save_calls _ = _ |- _ => rewrite Hown; clear Hown
    end.
  all: split.
  all: rewrite ?Forall_app, ?Forall_fmap, ?Forall_singleton; try done.
  all: try (split; [|done]).
  all: try (by apply Forall_true).
  all: rewrite ?fmap_app, <-?list_fmap_compose; simpl.
  all: rewrite ?list_fmap_id; try done.
  all: by apply prefix_app, prefix_cons, prefix_nil.
Qed.

(** A dispatch in which nothing fails but, possibly, the task body with an
    instance of [Exception]: [callback] returns; the task body was called
    once and its outcome made into the result; the [on_error] hooks were
    called, once each in registration order, exactly when the body raised;
    then the [post_execute] hooks, the result backend, once, and the
    [post_save] hooks, all on that result. *)
Theorem callback_completes self raw raise_err s o s' tr l :
  callback parse_params time self raw raise_err s = (o, s', tr) →
  forallb settled tr = true →
  l ∈ run_task_calls tr →
  o = Ret tt
  ∧ ∃ tid r ln a kw ot,
      target_calls tr = [(ln, a, kw, ot)]
      ∧ is_err r = negb (returned ot)
      ∧ return_value r = match ot with Ret v => v | Raise _ => VNone end
      ∧ on_error_calls tr =
          match ot with
          | Ret _ => []
          | Raise e => (λ i, (i, l, r, e)) <$>
                         overriding on_error 0 (middlewares (broker self))
          end
      ∧ post_execute_calls tr =
          (λ i, (i, l, r, Ret tt)) <$> overriding post_execute 0 (middlewares (broker self))
      ∧ set_result_calls tr = [(tid, r, Ret tt)]
      ∧ post_save_calls tr =
          (λ i, (i, l, r, Ret tt)) <$> overriding post_save 0 (middlewares (broker self)).
Proof.
  intros H Hset Hin. unfold callback in H. inv_run H; trace_simpl.
  all: rewrite ?andb_true_r, ?andb_true_iff in Hset; destruct_and?; try done.
  all: repeat match goal with
    | Hl : for_middlewares call_pre_execute _ _ _ _ = (Raise _, _, ?t),
      Hs : forallb settled ?t = true |- _ =>
        by destruct (pre_execute_loop_settled _ _ _ _ _ _ _ Hl Hs)
    | Hl : for_middlewares (call_hook _ _) _ _ _ _ = (Raise _, _, ?t),
      Hs : forallb settled ?t = true |- _ =>
        by pose proof (hook_loop_settled _ _ _ _ _ _ _ _ Hl (λ _ _ _, eq_refl) Hs)
    | Hl : for_middlewares (call_post_execute _ _) _ _ _ _ = (Raise _, _, ?t),
      Hs : forallb settled ?t = true |- _ =>
        by pose proof (hook_loop_settled _ _ _ _ _ _ _ _ Hl (λ _ _ _, eq_refl) Hs)
    | Hl : for_middlewares (call_post_save _ _) _ _ _ _ = (Raise _, _, ?t),
      Hs : forallb settled ?t = true |- _ =>
        by pose proof (hook_loop_settled _ _ _ _ _ _ _ _ Hl (λ _ _ _, eq_refl) Hs)
    | Hr : run_task _ _ _ _ _ _ = (Raise _, _, ?t),
      Hs : forallb settled ?t = true |- _ =>
        by destruct (run_task_settled _ _ _ _ _ _ _ Hr Hs) as (? & ? & ? & ? & ? & ? & _)
    end.
  all: try match goal with
    | Hr : run_task _ _ _ _ _ _ = (_, _, ?t),
      Hs : forallb settled ?t = true |- _ =>
        destruct (run_task_settled _ _ _ _ _ _ _ Hr Hs)
          as (r & ln & ar & kw & ot & ? & Htc & ? & ? & Hoe)
    end.
  all: part_facts; trace_simpl; use_facts; trace_simpl.
  all: try (by apply elem_of_nil in Hin).
  all: apply list_elem_of_singleton in Hin; simplify_eq.
  all: repeat match goal with u : unit |- _ => destruct u end.
  all: split; [done|].
  all: by eexists _, _, _, _, _, _.
Qed.

Lemma last_raised tr ev e :
  last tr = Some ev → raised_in ev = Some e → last (raised tr) = Some e.
Proof.
  intros (tr' & ->)%last_Some Hev. rewrite raised_app.
  unfold raised. simpl. rewrite Hev. simpl. apply last_snoc.
Qed.

Lemma hook_loop_raised_in hook ev i mws s o s' tr :
  for_middlewares (call_hook hook ev) i mws tt s = (o, s', tr) →
  (∀ j sj oj, raised_in (ev j sj oj) =
              match oj with Ret _ => None | Raise e => Some e end) →
  raised tr = match o with Ret _ => [] | Raise e => [e] end.
Proof.
  intros H Hev. apply for_hooks_inv in H as (calls & Hcalls & ->). unfold raised.
  induction Hcalls as [| ? ? ? ? ? ? ? _ _ IH | ? ? ? ? ? ? ? ? ? _ _ _ IH | ? ? ? ? ? ? ? _ _];
    simpl; rewrite ?Hev; done.
Qed.

(** The threading loop: what it logs as raised, and that it hands on the
    message it was given, in the same state, when it calls no hook. *)
Lemma pre_execute_loop_raised_in i mws l s o s' tr :
  for_middlewares call_pre_execute i mws l s = (o, s', tr) →
  raised tr = match o with Ret _ => [] | Raise e => [e] end
  ∧ (pre_execute_calls tr = [] → o = Ret l ∧ s' = s).
Proof.
  revert i l s tr. induction mws as [|mw rest IH]; intros i l s tr H; simpl in H.
  - inv_run H. done.
  - destruct (pre_execute mw) as [h|] eqn:Hh;
      inv_run H; unfold call_pre_execute in Hc; rewrite Hh in Hc; inv_run Hc; trace_simpl.
    + apply IH in Hk as [? _]. done.
    + done.
    + by apply IH in Hk.
Qed.

Lemma run_task_raised_last self target message s e s' tr :
  run_task parse_params time self target message s = (Raise e, s', tr) →
  last (raised tr) = Some e.
Proof.
  intros H. unfold run_task in H. inv_run H.
  all: try match goal with
    | Hloop : for_middlewares (call_on_error _ _ _) _ _ _ _ = (Raise _, _, _) |- _ =>
        apply hook_loop_last in Hloop as (j & sj & Hlast)
    end.
  all: eapply last_raised;
    [by rewrite ?app_assoc, ?last_snoc, ?last_app, ?Hlast|done].
Qed.

(** What [callback] raises.  It is the exception of the last call that
    raised: nothing is called after a failure that leaves [callback].  The
    one exception of its own is [KeyError]: every call returned, but the
    [pre_execute] hooks, of which at least one was called, handed on a
    message naming a task the broker does not have; then [run_task] is not
    entered, no task body is run and nothing is stored. *)
Theorem callback_raise_sources self raw raise_err s e s' tr :
  callback parse_params time self raw raise_err s = (Raise e, s', tr) →
  last (raised tr) = Some e
  ∨ (e = KeyError ∧ raised tr = [] ∧ pre_execute_calls tr ≠ []
     ∧ run_task_calls tr = [] ∧ target_calls tr = [] ∧ set_result_calls tr = []).
Proof.
  intros H. unfold callback in H. inv_run H; trace_simpl.
  all: repeat match goal with
    | Hl : for_middlewares call_pre_execute _ _ _ _ = (_, _, ?t) |- _ =>
        let Hr := fresh "Hr" in let Hn := fresh "Hn" in
        destruct (pre_execute_loop_raised_in _ _ _ _ _ _ _ Hl) as [Hr Hn];
        simpl in Hr; others_of Hl t @pre_execute_loop_others; clear Hl
    | Hl : for_middlewares (call_post_execute _ _) _ _ _ _ = (Raise _, _, _) |- _ =>
        apply hook_loop_raised_in in Hl; [simpl in Hl|by intros ? ? []]
    | Hl : for_middlewares (call_post_save _ _) _ _ _ _ = (Raise _, _, _) |- _ =>
        apply hook_loop_raised_in in Hl; [simpl in Hl|by intros ? ? []]
    | Hr : run_task _ _ _ _ _ _ = (Raise _, _, _) |- _ =>
        apply run_task_raised_last in Hr
    end.
  all: try (left; rewrite ?app_assoc, ?last_snoc; rewrite ?last_app;
            by repeat match goal with Heq : _ = _ |- _ => rewrite Heq end).
  right. do 2 (split; [done|]). split; [|done].
  intros [[= ->] ->]%Hn. congruence.
Qed.

End MoreCallback.


(** ** [__init__]: the tables and the tasks they come from *)
Section MoreInit.
Context {E : Type}.

Lemma per_task_lookup_Some {V} (f : @Callable E → V) tasks (acc : gmap string V) n v :
  foldl (λ acc task, <[decorated_task_name task := f (original_func task)]> acc) acc tasks
    !! n = Some v →
  (acc !! n = Some v ∧ ∀ task, task ∈ tasks → decorated_task_name task ≠ n)
  ∨ ∃ task, task ∈ tasks ∧ decorated_task_name task = n ∧ v = f (original_func task).
Proof.
  revert acc. induction tasks as [|task tasks IH]; intros acc H; simpl in H.
  - left. split; [done|]. by intros ? ?%elem_of_nil.
  - apply IH in H as [[H Hno]|(task' & ? & ? & ?)].
    + destruct (decide (decorated_task_name task = n)) as [<-|Hne].
      * rewrite lookup_insert_eq in H. simplify_eq. right. exists task.
        split; [left|done].
      * rewrite lookup_insert_ne in H by done. left. split; [done|].
        intros t [->|?]%elem_of_cons; [done|by apply Hno].
    + right. exists task'. split; [by right|done].
Qed.

Lemma per_task_lookup_None {V} (f : @Callable E → V) tasks (acc : gmap string V) n :
  foldl (λ acc task, <[decorated_task_name task := f (original_func task)]> acc) acc tasks
    !! n = None →
  acc !! n = None ∧ ∀ task, task ∈ tasks → decorated_task_name task ≠ n.
Proof.
  revert acc. induction tasks as [|task tasks IH]; intros acc H; simpl in H.
  - split; [done|]. by intros ? ?%elem_of_nil.
  - apply IH in H as [H Hno].
    destruct (decide (decorated_task_name task = n)) as [<-|Hne].
    + by rewrite lookup_insert_eq in H.
    + rewrite lookup_insert_ne in H by done. split; [done|].
      intros t [->|?]%elem_of_cons; [done|by apply Hno].
Qed.

Lemma per_task_named {V} (f : @Callable E → V) (available : gmap string AsyncTaskiqDecoratedTask) n :
  is_Some (foldl (λ acc task, <[decorated_task_name task := f (original_func task)]> acc)
                 (∅ : gmap string V) (map_to_list available).*2 !! n)
  ↔ ∃ k task, available !! k = Some task ∧ decorated_task_name task = n.
Proof.
  split.
  - intros [v [[H _]|(task & Hin & Hn & _)]%per_task_lookup_Some]; [done|].
    apply list_elem_of_fmap in Hin as ([k task'] & -> & Hin%elem_of_map_to_list).
    by exists k, task'.
  - intros (k & task & Hk & Hn).
    destruct (foldl _ _ _ !! n) as [v|] eqn:Hl; [done|].
    apply per_task_lookup_None in Hl as [_ Hno]. exfalso. apply (Hno task); [|done].
    apply list_elem_of_fmap. exists (k, task). split; [done|].
    by apply elem_of_map_to_list.
Qed.

Lemma per_task_keyed {V} (f : @Callable E → V) (available : gmap string AsyncTaskiqDecoratedTask) n :
  (∀ k task, available !! k = Some task → decorated_task_name task = k) →
  foldl (λ acc task, <[decorated_task_name task := f (original_func task)]> acc)
        (∅ : gmap string V) (map_to_list available).*2 !! n
  = f ∘ original_func <$> available !! n.
Proof.
  intros Hkeyed.
  destruct (foldl _ _ _ !! n) as [v|] eqn:Hl.
  - apply per_task_lookup_Some in Hl as [[H _]|(task & Hin & Hn & ->)]; [done|].
    apply list_elem_of_fmap in Hin as ([k task'] & -> & Hin%elem_of_map_to_list).
    simpl in *. rewrite <-Hn, (Hkeyed _ _ Hin), Hin. done.
  - apply per_task_lookup_None in Hl as [_ Hno].
    destruct (available !! n) as [task|] eqn:Hn; [|done].
    exfalso. apply (Hno task); [|by apply Hkeyed].
    apply list_elem_of_fmap. exists (n, task). split; [done|].
    by apply elem_of_map_to_list.
Qed.

(** The three tables of a new receiver are keyed by the names the tasks
    carry, not by the keys of the broker's registry: a name has an entry
    in each table exactly when some registered task carries it. *)
Theorem Receiver_init_table_names (broker : @AsyncBroker E) executor validate
    max_async_tasks n :
  let self := (Receiver_init broker executor validate max_async_tasks).1 in
  let named := ∃ k task, available_tasks broker !! k = Some task
                         ∧ decorated_task_name task = n in
  (is_Some (task_signatures self !! n) ↔ named)
  ∧ (is_Some (task_hints self !! n) ↔ named)
  ∧ (is_Some (dependency_graphs self !! n) ↔ named).
Proof.
  simpl. split; [|split]; apply per_task_named.
Qed.

(** When the broker registers every task under the name the task carries,
    the tables of a new receiver hold, under each registered name, the
    signature, the type hints and the dependency graph of that task's
    function, and nothing under any other name. *)
Theorem Receiver_init_tables (broker : @AsyncBroker E) executor validate
    max_async_tasks n :
  (∀ k task, available_tasks broker !! k = Some task → decorated_task_name task = k) →
  let self := (Receiver_init broker executor validate max_async_tasks).1 in
  task_signatures self !! n = signature ∘ original_func <$> available_tasks broker !! n
  ∧ task_hints self !! n = get_type_hints ∘ original_func <$> available_tasks broker !! n
  ∧ dependency_graphs self !! n
      = dependency_graph_of ∘ original_func <$> available_tasks broker !! n.
Proof.
  intros Hkeyed. simpl. split; [|split]; by apply per_task_keyed.
Qed.

End MoreInit.


(** ** [listen]: admission, and the receiver without a limit *)
Section MoreListen.
Local Set Warnings "-clear-no-such-hyp".
Context {E : Type}.
Implicit Types (σ : listen_state) (self : @Receiver E).

Lemma listen_run_no_sem acts σ σ' :
  sem_value σ = None → listen_run acts σ = Some σ' → sem_value σ' = None.
Proof.
  revert σ. induction acts as [|a acts IH]; intros σ Hsem Hrun; simpl in Hrun.
  - by simplify_eq.
  - destruct (listen_step a σ) as [σ1|] eqn:Hstep; [|done]. simpl in Hrun.
    eapply IH; [|done].
    destruct a; unfold listen_step in Hstep.
    + rewrite Hsem in Hstep. by simplify_eq.
    + case_bool_decide; by simplify_eq.
    + case_bool_decide; [|done]. simplify_eq. simpl. by rewrite Hsem.
Qed.

Lemma listen_spawn_many message n σ :
  sem_value σ = None →
  (∀ task, task ∈ executing σ → (task < created σ)%nat) →
  ∃ σ', listen_run (replicate n (Spawn message)) σ = Some σ'
        ∧ size (executing σ') = (size (executing σ) + n)%nat.
Proof.
  revert σ. induction n as [|n IH]; intros σ Hsem Hlt; simpl.
  - exists σ. split; [done|lia].
  - rewrite Hsem. simpl.
    destruct (IH (spawn None σ)) as (σ' & Hrun & Hsize); [done| |].
    + simpl. intros task [->%elem_of_singleton|?%Hlt]%elem_of_union; lia.
    + exists σ'. split; [done|]. rewrite Hsize. simpl.
      rewrite size_union, size_singleton; [lia|].
      apply disjoint_singleton_l. intros ?%Hlt. lia.
Qed.

(** With [max_async_tasks = K > 0], [listen] takes on the next message
    exactly when fewer than [K] dispatch units are in its set of tasks.
    That set holds the units still running and the ones already done whose
    done callback has not run yet: a finished unit keeps its permit until
    then. *)
Theorem listen_admits (broker : @AsyncBroker E) executor validate K acts σ message :
  0 < K →
  listen_run acts (listen_start (Receiver_init broker executor validate (Some K)).1)
    = Some σ →
  (is_Some (listen_step (Spawn message) σ) ↔ Z.of_nat (size (tasks σ)) < K)
  ∧ tasks σ = executing σ ∪ scheduled σ
  ∧ executing σ ## scheduled σ.
Proof.
  intros HK Hrun.
  eapply (listen_run_inv K) in Hrun as ((v & Hv & Hv0 & HvK) & Htasks & Hdisj & _).
  2: { apply listen_start_inv; [|lia]. simpl. by rewrite bool_decide_true. }
  split; [|done]. unfold listen_step. rewrite Hv.
  case_bool_decide; split; intros Hq; try lia; try done.
Qed.

(** Without a positive [max_async_tasks] the receiver has no semaphore and
    says so in a warning; [listen] then takes on every message at once,
    and the number of dispatch units running at a time has no bound. *)
Theorem listen_unlimited (broker : @AsyncBroker E) executor validate max_async_tasks :
  (∀ K, max_async_tasks = Some K → K ≤ 0) →
  let init := Receiver_init broker executor validate max_async_tasks in
  (∃ text, init.2 = [EvLog WARNING text])
  ∧ (∀ acts σ message,
       listen_run acts (listen_start init.1) = Some σ →
       sem_value σ = None ∧ is_Some (listen_step (Spawn message) σ))
  ∧ (∀ n, ∃ acts σ, listen_run acts (listen_start init.1) = Some σ
                    ∧ size (executing σ) = n).
Proof.
  intros Hmax. simpl.
  assert (match max_async_tasks with
          | Some n => if bool_decide (0 < n) then Some n else None
          | None => None
          end = None) as Hsem.
  { destruct max_async_tasks as [K|]; [|done].
    case_bool_decide; [|done]. specialize (Hmax K eq_refl). lia. }
  rewrite Hsem. split; [eauto|]. split.
  - intros acts σ message Hrun.
    apply listen_run_no_sem in Hrun as Hnone; [|by unfold listen_start; simpl].
    split; [done|]. unfold listen_step. rewrite Hnone. eauto.
  - intros n.
    edestruct (listen_spawn_many [] n) as (σ' & Hrun & Hsize); [| |
      exists (replicate n (Spawn [])), σ'; split; [exact Hrun|]].
    + by unfold listen_start; simpl.
    + unfold listen_start; simpl. set_solver.
    + rewrite Hsize. unfold listen_start. cbn [executing]. by rewrite size_empty.
Qed.

End MoreListen.


(** ** The concrete worker, again *)

(** [boom()] run directly: a failed result, [on_error] called on the first
    and on the third middleware. *)
Lemma run_task_result_and_on_error_witness :
  log (mkResult true None VNone 1) = None
  ∧ ∃ ln a kw ot,
      target_calls ran_boom.2 = [(ln, a, kw, ot)]
      ∧ match ot with
        | Ret v =>
            is_err (mkResult true None VNone 1) = false
            ∧ return_value (mkResult true None VNone 1) = v
            ∧ on_error_calls ran_boom.2 = []
        | Raise e =>
            isinstance_Exception e = true
            ∧ is_err (mkResult true None VNone 1) = true
            ∧ return_value (mkResult true None VNone 1) = VNone
            ∧ on_error_calls ran_boom.2 =
              (λ i, (i, 0%nat, mkResult true None VNone 1, e)) <$>
                overriding on_error 0
                  (middlewares (broker (receiver_with [watch; plain; watch])))
        end.
Proof.
  apply (run_task_result_and_on_error parse_params time
           (receiver_with [watch; plain; watch]) boom 0%nat
           (holding (default empty_message (decode ["b"%byte])))
           (mkResult true None VNone 1) ran_boom.1.2 ran_boom.2).
  vm_compute. reflexivity.
Defined.

(** [add(2, 3)] takes three ticks, all of them between the two readings. *)
Lemma run_task_times_the_body_only_witness :
  ∃ before t0 ln a kw ot logs t1 after,
    ran_add.2 = before ++ [EvTime t0; EvTarget ln a kw ot] ++ logs ++ [EvTime t1] ++ after
    ∧ forallb is_log logs = true
    ∧ time_readings before = [] ∧ time_readings after = []
    ∧ execution_time (mkResult false None (VInt 5) 3) = t1 - t0.
Proof.
  apply (run_task_times_the_body_only parse_params time (receiver_with []) add 0%nat
           (holding (default empty_message (decode ["a"%byte])))
           (mkResult false None (VInt 5) 3) ran_add.1.2 ran_add.2).
  vm_compute. reflexivity.
Defined.

(** [boom] run under a name the receiver has no tables for. *)
Lemma run_task_without_graph_witness :
  opened ran_unregistered.2 = 0%nat ∧ closed ran_unregistered.2 = 0%nat
  ∧ resolved ran_unregistered.2 = []
  ∧ ∃ ln ot s2,
      invoke boom
        (args (msg_at (holding (default empty_message (decode ["m"%byte]))) 0%nat))
        (kwargs (msg_at (holding (default empty_message (decode ["m"%byte]))) 0%nat))
        (holding (default empty_message (decode ["m"%byte]))) = (ot, s2)
      ∧ target_calls ran_unregistered.2
        = [(ln, args (msg_at (holding (default empty_message (decode ["m"%byte]))) 0%nat),
            kwargs (msg_at (holding (default empty_message (decode ["m"%byte]))) 0%nat),
            ot)].
Proof.
  apply (run_task_without_graph parse_params time (receiver_with [watch]) boom 0%nat
           (holding (default empty_message (decode ["m"%byte])))
           (holding (default empty_message (decode ["m"%byte])))
           ran_unregistered.1.1 ran_unregistered.1.2 ran_unregistered.2);
    vm_compute; reflexivity.
Defined.

(** The context [scale] resolves its dependency in is opened once and
    closed once. *)
Lemma run_task_closes_witness :
  (opened ran_scale.2 ≤ 1)%nat ∧ (closed ran_scale.2 ≤ opened ran_scale.2)%nat
  ∧ closed ran_scale.2 = opened ran_scale.2
  ∧ opened ran_scale.2 = 1%nat.
Proof.
  destruct (run_task_closes parse_params time (receiver_with []) scale 0%nat
              (holding (default empty_message (decode ["f"%byte])))
              ran_scale.1.1 ran_scale.1.2 ran_scale.2) as (H1 & H2 & H3).
  { vm_compute. reflexivity. }
  split; [exact H1|]. split; [exact H2|]. split; [|vm_compute; reflexivity].
  apply (H3 Awaited [] {["x" := VInt 4; "factor" := VInt 5]} (Ret (VInt 20))).
  - vm_compute. left.
  - exact I.
Defined.
